(** * Seriation with the spectral eta-trick: scores, weights and the solver loop

    A shallow embedding of [spectral_eta_trick_.py]: the score function
    [compute_score] (sparse and dense branches), the weight update and the
    iteration of [spectral_eta_trick3].

    Numbers: integer arrays (ranks, distances to the diagonal) are lists of
    [Z]; floating-point arrays (similarities, weights, embedding coordinates,
    scores) are lists of exact rationals [Q], compared with [==].  The
    spectral embedding and [np.sqrt] are outside the file and enter as
    parameters. *)

From Stdlib Require Import ZArith QArith Qabs Lqa String.
From stdpp Require Import base tactics option list sorting.

Local Open Scope Z_scope.

(** ** numpy primitives *)

(** [a[i]] for one integer index: negative indices count from the end, anything
    outside [-len, len) raises [IndexError] (here [None]). *)
Definition getitem {A : Type} (a : list A) (i : Z) : option A :=
  let n := Z.of_nat (length a) in
  if bool_decide (0 <= i < n) then a !! Z.to_nat i
  else if bool_decide (- n <= i < 0) then a !! Z.to_nat (n + i)
  else None.

(** [a[idx]] for an integer index array (a copy). *)
Definition take_idx {A : Type} (a : list A) (idx : list Z) : option (list A) :=
  mapM (getitem a) idx.

(** [np.arange(n)] *)
Definition arange (n : nat) : list Z := Z.of_nat <$> seq 0 n.

(** [np.where(mask)[0]] *)
Fixpoint where_from (k : nat) (mask : list bool) : list nat :=
  match mask with
  | [] => []
  | b :: m => if b then k :: where_from (S k) m else where_from (S k) m
  end.

Definition np_where (mask : list bool) : list nat := where_from 0 mask.

(** [a[idx]] read and [a[idx] = vals] write for index arrays that come out of
    [np.where] over a mask of [a]'s own length, hence always in range. *)
Definition get_items (a : list Z) (idx : list nat) : list Z :=
  (fun i => default 0 (a !! i)) <$> idx.

Fixpoint set_items (a : list Z) (idx : list nat) (vals : list Z) : list Z :=
  match idx, vals with
  | i :: idx', x :: vals' => set_items (<[i := x]> a) idx' vals'
  | _, _ => a
  end.

(** [a[idx] op= ...]: read the selected cells, apply the operation to the copy,
    write it back. *)
Definition iop (f : Z -> Z) (a : list Z) (idx : list nat) : list Z :=
  set_items a idx (f <$> get_items a idx).

(** [a[idx] = x] with a scalar on the right. *)
Definition fill_items (x : Z) (a : list Z) (idx : list nat) : list Z :=
  set_items a idx (replicate (length idx) x).

(** [np.sum] of a float array and of a float grid. *)
Definition np_sum (a : list Q) : Q := foldr Qplus 0%Q a.

Definition np_sum2 (m : list (list Q)) : Q := np_sum (np_sum <$> m).

(** [np.multiply(v, d)] of a float array with an integer array. *)
Definition np_multiply (v : list Q) (d : list Z) : list Q :=
  zip_with (fun x k => (x * inject_Z k)%Q) v d.

(** [scipy.linalg.toeplitz(c)]: cell [(a, b)] holds [c[|a - b|]]. *)
Definition toeplitz (c : list Z) : list (list Z) :=
  let n := length c in
  (fun a => (fun b => default 0 (c !! Z.to_nat (Z.abs (Z.of_nat a - Z.of_nat b))))
              <$> seq 0 n) <$> seq 0 n.

(** ** Matrices *)

(** A [coo_matrix]: its shape and the stored triplets [(row, col, data)];
    [X.row], [X.col], [X.data] are the three projections.  Any other sparse
    format is first converted to this one. *)
Record coo_matrix : Type := Coo {
  coo_shape : nat * nat;
  coo_entries : list (nat * nat * Q)
}.

Definition coo_row (X : coo_matrix) : list Z :=
  (fun e => Z.of_nat e.1.1) <$> coo_entries X.
Definition coo_col (X : coo_matrix) : list Z :=
  (fun e => Z.of_nat e.1.2) <$> coo_entries X.
Definition coo_data (X : coo_matrix) : list Q :=
  snd <$> coo_entries X.

(** The input of the solver: [issparse(X)] picks the branch. *)
Inductive matrix : Type :=
  | Sparse (X : coo_matrix)
  | Dense (X : list (list Q)).

Definition dense_shape (X : list (list Q)) : nat * nat :=
  (length X, match X with [] => 0%nat | r :: _ => length r end).

Definition shape (X : matrix) : nat * nat :=
  match X with
  | Sparse X => coo_shape X
  | Dense X => dense_shape X
  end.

(** ** compute_score *)

(** The band test [d <= dh], widened by [d >= n - dh] when [circular]
    ([is_in_band += ...] on boolean arrays is an elementwise or). *)
Definition is_in_band (dh : Z) (circular : bool) (n : Z) (d : list Z) : list bool :=
  let m := (fun x => bool_decide (x <= dh)) <$> d in
  if circular then zip_with orb m ((fun x => bool_decide (n - dh <= x)) <$> d)
  else m.

(** The in-place rewriting of the distance array, one branch per
    [score_function]; any other string leaves the distances as they are. *)
Definition loss_array (score_function : string) (dh : Z) (circular : bool)
    (n : Z) (d2diag : list Z) : list Z :=
  if String.eqb score_function "2SUM" then (fun x => x ^ 2) <$> d2diag
  else if String.eqb score_function "Huber" then
    let band := is_in_band dh circular n d2diag in
    let in_band := np_where band in
    let out_band := np_where (negb <$> band) in
    let d2diag := iop (fun x => x ^ 2) d2diag in_band in
    let d2diag := iop (fun x => x * (2 * dh)) d2diag out_band in
    iop (fun x => x - dh ^ 2) d2diag out_band
  else if String.eqb score_function "R2S" then
    let band := is_in_band dh circular n d2diag in
    let in_band := np_where band in
    let out_band := np_where (negb <$> band) in
    let d2diag := iop (fun x => x ^ 2) d2diag in_band in
    fill_items (dh ^ 2) d2diag out_band
  else d2diag.

(** Sparse branch: [abs(perm[r] - perm[c])], or [abs(r - c)] without [perm]. *)
Definition sparse_d2diag (X : coo_matrix) (perm : option (list Z)) : option (list Z) :=
  match perm with
  | Some p =>
      pr ← take_idx p (coo_row X);
      pc ← take_idx p (coo_col X);
      Some (zip_with (fun a b => Z.abs (a - b)) pr pc)
  | None => Some (zip_with (fun a b => Z.abs (a - b)) (coo_row X) (coo_col X))
  end.

(** Dense branch: [X.copy()[perm, :]] then [X_p.T[perm, :].T], that is rows and
    then columns picked by [perm]. *)
Definition dense_permuted (X : list (list Q)) (perm : option (list Z))
    : option (list (list Q)) :=
  match perm with
  | Some p => rows ← take_idx X p; mapM (fun row => take_idx row p) rows
  | None => Some X
  end.

(** [np.multiply(X_p, D2diag_mat)] needs both grids of one shape. *)
Definition multiply_grid (X_p : list (list Q)) (D : list (list Z))
    : option (list (list Q)) :=
  if bool_decide (length X_p = length D
                  /\ Forall2 (fun r d => length r = length d) X_p D)
  then Some (zip_with np_multiply X_p D) else None.

(** [compute_score(X, score_function, dh, perm, circular)].  [dh] is an
    integer, as documented, so that [int(dh)] in the sparse branch is the
    identity. *)
Definition compute_score (X : matrix) (score_function : string) (dh : Z)
    (perm : option (list Z)) (circular : bool) : option Q :=
  match X with
  | Sparse X =>
      let n := Z.of_nat (coo_shape X).1 in
      d2diag ← sparse_d2diag X perm;
      let d2diag := loss_array score_function dh circular n d2diag in
      Some (np_sum (np_multiply (coo_data X) d2diag))
  | Dense X =>
      X_p ← dense_permuted X perm;
      let n := length X_p in
      let d2diagv := loss_array score_function dh circular (Z.of_nat n) (arange n) in
      prod ← multiply_grid X_p (toeplitz d2diagv);
      Some (np_sum2 prod)
  end.

(** ** Sorting, columns and reshaping *)

(** [np.argsort]: the indices that sort the array, here by stable insertion
    (numpy leaves the order of equal keys open). *)
Fixpoint insert_key {A : Type} (leb : A -> A -> bool) (p : Z * A)
    (l : list (Z * A)) : list (Z * A) :=
  match l with
  | [] => [p]
  | q :: l' => if leb p.2 q.2 then p :: l else q :: insert_key leb p l'
  end.

Definition argsort {A : Type} (leb : A -> A -> bool) (xs : list A) : list Z :=
  fst <$> foldr (insert_key leb) [] (zip (arange (length xs)) xs).

(** [embedding[:, k]]: [IndexError] when the embedding has no column [k]. *)
Definition column (embedding : list (list Q)) (k : nat) : option (list Q) :=
  mapM (fun row => row !! k) embedding.

(** [np.tile(a, n)] and [np.repeat(a, n)] *)
Definition np_tile {A : Type} (a : list A) (n : nat) : list A :=
  concat (replicate n a).
Definition np_repeat {A : Type} (a : list A) (n : nat) : list A :=
  a ≫= replicate n.

(** [np.identity(n).flatten()] *)
Definition identity_flat (n : nat) : list Q :=
  zip_with (fun i j => if bool_decide (i = j) then 1%Q else 0%Q)
           (np_repeat (seq 0 n) n) (np_tile (seq 0 n) n).

(** [np.reshape(a, (rows, cols))]: [ValueError] unless the sizes agree. *)
Fixpoint chunks {A : Type} (rows cols : nat) (a : list A) : list (list A) :=
  match rows with
  | O => []
  | S r => take cols a :: chunks r cols (drop cols a)
  end.

Definition reshape {A : Type} (rows cols : nat) (a : list A) : option (list (list A)) :=
  if bool_decide (length a = (rows * cols)%nat) then Some (chunks rows cols a) else None.

(** Elementwise [a + b] of two flat float arrays of one length. *)
Definition np_add (a b : list Q) : option (list Q) :=
  if bool_decide (length a = length b) then Some (zip_with Qplus a b) else None.

(** ** The solver *)

(** The keyword arguments of [spectral_eta_trick3].  [norm_laplacian],
    [norm_adjacency], [eigen_solver] and [scale_embedding] are only handed to
    the embedding routine and are part of that parameter; [do_plot] draws
    and has no bearing on the result. *)
Record config : Type := Config {
  n_iter : Z;
  dh : Z;
  score_function : string;
  return_score : bool;
  circular : bool;
  add_momentum : option Q;
  avg_dim : Z;
  avg_scaling : bool
}.

(** What one call does besides returning: each call of the embedding routine,
    each call of [compute_score], and each weight structure the update
    assigns, in order. *)
Inductive event : Type :=
  | EvEmbed (X_w : matrix) (n_components : Z)
  | EvScore (perm : option (list Z))
  | EvWeights (eta : list Q).

(** The loop variables of one branch; [W] is the weight structure
    ([eta_vec], or [eta_mat] after its reshape).  [eta_old] is the array the
    sparse branch creates when [add_momentum] is truthy. *)
Record loop_state (W : Type) : Type := LoopState {
  best_perm : list Z;
  best_score : Q;
  eta : W;
  eta_old : option (list Q);
  trace : list event
}.
Arguments LoopState {W}.
Arguments best_perm {W}.
Arguments best_score {W}.
Arguments eta {W}.
Arguments eta_old {W}.
Arguments trace {W}.

(** How an iteration ends: [break], or on to the next one. *)
Inductive flow (S : Type) : Type :=
  | Break (s : S)
  | Next (s : S).
Arguments Break {S}.
Arguments Next {S}.

(** [a < b] on floats. *)
Definition Qlt_bool (a b : Q) : bool := negb (Qle_bool b a).

(** Python truthiness of [add_momentum]. *)
Definition truthy (g : option Q) : bool :=
  match g with
  | Some x => negb (Qeq_bool x 0)
  | None => false
  end.

Definition default_dim (cfg : config) : Z :=
  if bool_decide (avg_dim cfg > 8) then avg_dim cfg + 1 else 8.

(** [X_w = X.copy(); X_w.data /= eta_vec] *)
Definition reweight_sparse (X : coo_matrix) (eta_vec : list Q) : coo_matrix :=
  Coo (coo_shape X)
      (zip_with (fun e w => (e.1, (e.2 / w)%Q)) (coo_entries X) eta_vec).

(** [np.divide(X, eta_mat)] *)
Definition reweight_dense (X eta_mat : list (list Q)) : list (list Q) :=
  zip_with (zip_with Qdiv) X eta_mat.

(** [new_perm *= -1; new_perm += (n-1)] *)
Definition flip_perm (n : Z) (new_perm : list Z) : list Z :=
  (fun x => x * -1 + (n - 1)) <$> new_perm.

Section Solver.

(** [mdso.spectral_embedding] with its normalisation and solver options
    fixed: from the reweighted matrix and [n_components] to one row of
    coordinates per item, or a failure. *)
Variable spectral_embedding : matrix -> Z -> option (list (list Q)).

(** [np.sqrt] on the integers [1 + dim]. *)
Variable np_sqrt : Z -> Q.

(** The clamp and scaling shared by both branches, applied to the rank
    distances of dimension [dim]:
    [np.minimum(eta_add, n - eta_add)] if circular, [np.maximum(dh, eta_add)],
    then [eta_add * 1./np.sqrt(1 + dim)] if [avg_scaling]. *)
Definition clamp_scale (cfg : config) (n : Z) (dim : nat) (eta_add : list Z) : list Q :=
  let eta_add := if circular cfg then (fun x => Z.min x (n - x)) <$> eta_add
                 else eta_add in
  let eta_add := Z.max (dh cfg) <$> eta_add in
  if avg_scaling cfg
  then (fun x => (inject_Z x * 1 / np_sqrt (1 + Z.of_nat dim))%Q) <$> eta_add
  else inject_Z <$> eta_add.

(** [d_perm = np.argsort(np.argsort(embedding[:, dim]))] *)
Definition dim_ranks (embedding : list (list Q)) (dim : nat) : option (list Z) :=
  col ← column embedding dim;
  Some (argsort Z.leb (argsort Qle_bool col)).

(** One round of the sparse [for dim in range(d_)] loop. *)
Definition eta_add_sparse (cfg : config) (n : Z) (X : coo_matrix)
    (embedding : list (list Q)) (dim : nat) : option (list Q) :=
  d_perm ← dim_ranks embedding dim;
  dr ← take_idx d_perm (coo_row X);
  dc ← take_idx d_perm (coo_col X);
  Some (clamp_scale cfg n dim (zip_with (fun a b => Z.abs (a - b)) dr dc)).

(** One round of the dense loop:
    [abs(np.tile(d_perm, n) - np.repeat(d_perm, n))]. *)
Definition eta_add_dense (cfg : config) (n : nat)
    (embedding : list (list Q)) (dim : nat) : option (list Q) :=
  d_perm ← dim_ranks embedding dim;
  Some (clamp_scale cfg (Z.of_nat n) dim
          (zip_with (fun a b => Z.abs (a - b)) (np_tile d_perm n) (np_repeat d_perm n))).

(** The accumulation [eta += eta_add] over [dim = 0 .. d_ - 1], from the
    start value [eta0]. *)
Fixpoint accumulate (eta_add : nat -> option (list Q)) (dims : list nat)
    (eta0 : list Q) : option (list Q) :=
  match dims with
  | [] => Some eta0
  | dim :: dims' =>
      a ← eta_add dim;
      e ← np_add eta0 a;
      accumulate eta_add dims' e
  end.

Definition dims (cfg : config) (n : Z) : list nat :=
  seq 0 (Z.to_nat (Z.min (avg_dim cfg) (n - 1))).

(** The sparse weight update: [eta_vec = np.zeros(len(r))], then the loop. *)
Definition update_sparse (cfg : config) (n : Z) (X : coo_matrix)
    (embedding : list (list Q)) : option (list Q) :=
  accumulate (eta_add_sparse cfg n X embedding) (dims cfg n)
             (replicate (length (coo_entries X)) 0%Q).

(** The dense weight update: [eta_mat = np.identity(n).flatten()], the loop,
    and the final [np.reshape(eta_mat, (n, n))]. *)
Definition update_dense (cfg : config) (n : nat)
    (embedding : list (list Q)) : option (list (list Q)) :=
  flat ← accumulate (eta_add_dense cfg n embedding) (dims cfg (Z.of_nat n))
                    (identity_flat n);
  reshape n n flat.

(** The body of the sparse [for it in range(n_iter)]. *)
Definition sparse_body (cfg : config) (X : coo_matrix)
    (st : loop_state (list Q)) : option (flow (loop_state (list Q))) :=
  let n := Z.of_nat (coo_shape X).1 in
  let X_w := reweight_sparse X (eta st) in
  embedding ← spectral_embedding (Sparse X_w) (default_dim cfg);
  let tr := trace st ++ [EvEmbed (Sparse X_w) (default_dim cfg)] in
  col0 ← column embedding 0;
  let new_perm := argsort Qle_bool col0 in
  if bool_decide (new_perm = best_perm st)
  then Some (Break (LoopState (best_perm st) (best_score st) (eta st) (eta_old st) tr))
  else
    first ← getitem new_perm 0;
    last ← getitem new_perm (-1);
    let flipped := bool_decide (first > last) in
    let embedding := if flipped then reverse embedding else embedding in
    let new_perm := if flipped then flip_perm n new_perm else new_perm in
    new_score ← compute_score (Sparse X) (score_function cfg) (dh cfg)
                              (Some new_perm) false;
    let tr := tr ++ [EvScore (Some new_perm)] in
    let best := if Qlt_bool new_score (best_score st)
                then new_perm else best_perm st in
    eta_vec ← update_sparse cfg n X embedding;
    Some (Next (LoopState best (best_score st) eta_vec (eta_old st)
                          (tr ++ [EvWeights eta_vec]))).

(** The body of the dense loop. *)
Definition dense_body (cfg : config) (X : list (list Q))
    (st : loop_state (list (list Q))) : option (flow (loop_state (list (list Q)))) :=
  let n := (dense_shape X).1 in
  let X_w := reweight_dense X (eta st) in
  embedding ← spectral_embedding (Dense X_w) (default_dim cfg);
  let tr := trace st ++ [EvEmbed (Dense X_w) (default_dim cfg)] in
  col0 ← column embedding 0;
  let new_perm := argsort Qle_bool col0 in
  new_score ← compute_score (Dense X) (score_function cfg) (dh cfg)
                            (Some new_perm) false;
  let tr := tr ++ [EvScore (Some new_perm)] in
  let best := if Qlt_bool new_score (best_score st)
              then new_perm else best_perm st in
  eta_mat ← update_dense cfg n embedding;
  Some (Next (LoopState best (best_score st) eta_mat (eta_old st)
                        (tr ++ [EvWeights (concat eta_mat)]))).

(** [for it in range(n_iter)] around a body. *)
Fixpoint loop {S : Type} (body : S -> option (flow S)) (k : nat) (st : S)
    : option S :=
  match k with
  | O => Some st
  | S k' =>
      r ← body st;
      match r with
      | Break st' => Some st'
      | Next st' => loop body k' st'
      end
  end.

(** [return (best_perm, best_score)] or [return best_perm]. *)
Definition result (cfg : config) (perm : list Z) (score : Q)
    : list Z * option Q :=
  (perm, if return_score cfg then Some score else None).

(** [spectral_eta_trick3(X, ...)]: the returned value and, next to it, the
    trace of the call; [None] is any exception (the failed [assert], an
    index error, a failure of the embedding). *)
Definition spectral_eta_trick3 (cfg : config) (X : matrix)
    : option ((list Z * option Q) * list event) :=
  let '(n, n2) := shape X in
  if bool_decide (n = n2) then
    if bool_decide (n < 3)%nat then Some (result cfg (arange n) (-1), [])
    else
      let best_perm0 := arange n in
      best_score0 ← compute_score X (score_function cfg) (dh cfg) None false;
      let tr := [EvScore None] in
      match X with
      | Sparse Xs =>
          let len := length (coo_entries Xs) in
          let st := LoopState best_perm0 best_score0 (replicate len 1%Q)
                      (if truthy (add_momentum cfg)
                       then Some (replicate len 1%Q) else None) tr in
          st' ← loop (sparse_body cfg Xs) (Z.to_nat (n_iter cfg)) st;
          Some (result cfg (best_perm st') (best_score st'), trace st')
      | Dense Xd =>
          let st := LoopState best_perm0 best_score0
                      (replicate n (replicate n 1%Q)) None tr in
          st' ← loop (dense_body cfg Xd) (Z.to_nat (n_iter cfg)) st;
          Some (result cfg (best_perm st') (best_score st'), trace st')
      end
  else None.

End Solver.

(** ** Reading the score as a sum over entries *)

(** The loss of one entry at distance [d], as [loss_array] leaves it in the
    array: the per-entry reading of the four branches. *)
Definition in_band (dh : Z) (circular : bool) (n d : Z) : bool :=
  bool_decide (d <= dh) || (circular && bool_decide (n - dh <= d)).

Definition loss_term (score_function : string) (dh : Z) (circular : bool)
    (n d : Z) : Z :=
  if String.eqb score_function "2SUM" then d ^ 2
  else if String.eqb score_function "Huber" then
    if in_band dh circular n d then d ^ 2 else 2 * dh * d - dh ^ 2
  else if String.eqb score_function "R2S" then
    if in_band dh circular n d then d ^ 2 else dh ^ 2
  else d.

(** A well-formed [n] by [n] input: stored indices inside the shape, or [n]
    rows of [n] cells. *)
Definition square (n : nat) (X : matrix) : Prop :=
  match X with
  | Sparse X =>
      coo_shape X = (n, n)
      /\ Forall (fun e => (e.1.1 < n)%nat /\ (e.1.2 < n)%nat) (coo_entries X)
  | Dense X => length X = n /\ Forall (fun r => length r = n) X
  end.

(** The [perm] argument: absent, or every value of [0 .. n-1] exactly once. *)
Definition valid_perm (n : nat) (perm : option (list Z)) : Prop :=
  match perm with
  | Some p => p ≡ₚ arange n
  | None => True
  end.

(** Nonnegative similarities. *)
Definition nonneg (X : matrix) : Prop :=
  match X with
  | Sparse X => Forall (fun e => (0 <= e.2)%Q) (coo_entries X)
  | Dense X => Forall (Forall (fun w => (0 <= w)%Q)) X
  end.

(** Cell [(a, b)] of a grid. *)
Definition cell (X : list (list Q)) (a b : nat) : Q :=
  default 0%Q (X !! a ≫= fun row => row !! b).

(** [perm[i]], or [i] itself without [perm]. *)
Definition perm_at (perm : option (list Z)) (i : nat) : Z :=
  match perm with
  | Some p => default 0 (p !! i)
  | None => Z.of_nat i
  end.

(** The weighted pairs a score runs over, each with its distance.  Sparse
    input: every stored entry [(i, j, w)], at distance
    [|perm[i] - perm[j]|].  Dense input: every pair of positions [(a, b)],
    with the weight [X[perm[a], perm[b]]] found there after reordering, at
    distance [|a - b|]. *)
Definition pairs (X : matrix) (perm : option (list Z)) : list (Q * Z) :=
  match X with
  | Sparse X =>
      (fun e => (e.2, Z.abs (perm_at perm e.1.1 - perm_at perm e.1.2)))
        <$> coo_entries X
  | Dense X =>
      a ← seq 0 (length X);
      (fun b => (cell X (Z.to_nat (perm_at perm a)) (Z.to_nat (perm_at perm b)),
                 Z.abs (Z.of_nat a - Z.of_nat b))) <$> seq 0 (length X)
  end.

(** The pairs of nonzero weight. *)
Definition nonzero (ps : list (Q * Z)) : list (Q * Z) :=
  filter (fun p => Qeq_bool p.1 0 = false) ps.

(** The sum of [weight * f d] over a list of pairs. *)
Definition weighted_sum (f : Z -> Z) (ps : list (Q * Z)) : Q :=
  np_sum ((fun p => (p.1 * inject_Z (f p.2))%Q) <$> ps).

(** The Huber loss of the specification: quadratic inside the band ([d <= dh],
    and when circular also [d >= n - dh]), linear outside. *)
Definition huber_quadratic (d : Z) : Z := d ^ 2.
Definition huber_linear (dh d : Z) : Z := 2 * dh * d - dh ^ 2.
Definition huber_spec (dh : Z) (circular : bool) (n d : Z) : Z :=
  if bool_decide (d <= dh \/ (circular = true /\ d >= n - dh))
  then huber_quadratic d else huber_linear dh d.

(** The circular distance of the specification, [min(d, n - d)]. *)
Definition wrap (n d : Z) : Z := Z.min d (n - d).

(** [scipy]'s [toarray]: the dense grid of a sparse matrix, stored entries
    of one cell added up. *)
Definition toarray (X : coo_matrix) : list (list Q) :=
  (fun i => (fun j =>
     np_sum (snd <$> filter (fun e => e.1 = (i, j)) (coo_entries X)))
     <$> seq 0 (coo_shape X).2) <$> seq 0 (coo_shape X).1.

(** ** Worked inputs *)

(** Three items, the first two similar. *)
Definition link_coo : coo_matrix :=
  Coo (3%nat, 3%nat) [(0%nat, 1%nat, 1%Q); (1%nat, 0%nat, 1%Q)].

(** Three items, the two outer ones similar. *)
Definition far_coo : coo_matrix :=
  Coo (3%nat, 3%nat) [(0%nat, 2%nat, 1%Q); (2%nat, 0%nat, 1%Q)].

(** The cyclic shift, a permutation that is not its own inverse. *)
Definition rotation : list Z := [1; 2; 0].

(** The path 0 - 2 - 1, as a grid and as triplets: the identity ordering
    splits it, the ordering 0, 2, 1 lays it out. *)
Definition path_dense : list (list Q) := [[0; 0; 1]; [0; 0; 1]; [1; 1; 0]]%Q.

Definition path_coo : coo_matrix :=
  Coo (3%nat, 3%nat)
      [(0%nat, 2%nat, 1%Q); (2%nat, 0%nat, 1%Q);
       (1%nat, 2%nat, 1%Q); (2%nat, 1%nat, 1%Q)].

(** The path 0 - 1 - 2. *)
Definition chain_coo : coo_matrix :=
  Coo (3%nat, 3%nat)
      [(0%nat, 1%nat, 1%Q); (1%nat, 0%nat, 1%Q);
       (1%nat, 2%nat, 1%Q); (2%nat, 1%nat, 1%Q)].

(** A two by two input. *)
Definition pair_dense : list (list Q) := [[0; 1]; [1; 0]]%Q.

(** An embedding routine that puts item [i] at [coords[i]] in every
    component, whatever the weights. *)
Definition line_embedding (coords : list Q) (X_w : matrix) (n_components : Z)
    : option (list (list Q)) :=
  Some ((fun x => replicate (Z.to_nat n_components) x) <$> coords).

(** A square root to three decimals. *)
Definition sqrt_milli (k : Z) : Q := Qmake (Z.sqrt (k * 1000000)) 1000.

(** ** Reading the loop *)

(** The candidate permutation of an iteration that embeds [X_w]. *)
Definition candidate (spectral_embedding : matrix -> Z -> option (list (list Q)))
    (cfg : config) (X_w : matrix) : option (list Z) :=
  embedding ← spectral_embedding X_w (default_dim cfg);
  col0 ← column embedding 0;
  Some (argsort Qle_bool col0).

(** The reweighted matrix an iteration starts from. *)
Definition sparse_input (X : coo_matrix) (st : loop_state (list Q)) : matrix :=
  Sparse (reweight_sparse X (eta st)).
Definition dense_input (X : list (list Q)) (st : loop_state (list (list Q))) : matrix :=
  Dense (reweight_dense X (eta st)).

(** A loop stops on a match when, from any state whose candidate is the
    current best permutation, it ends at once: the state is returned as it
    was, with the one call of the embedding added to its trace, however many
    iterations remain. *)
Definition stops_on_match {W : Type}
    (spectral_embedding : matrix -> Z -> option (list (list Q)))
    (cfg : config) (input : loop_state W -> matrix)
    (body : loop_state W -> option (flow (loop_state W))) : Prop :=
  forall st k,
    candidate spectral_embedding cfg (input st) = Some (best_perm st) ->
    loop body (S k) st
    = Some (LoopState (best_perm st) (best_score st) (eta st) (eta_old st)
              (trace st ++ [EvEmbed (input st) (default_dim cfg)])).

(** The momentum step of the specification:
    [(1 - gamma) * raw_next + gamma * previous]. *)
Definition momentum_blend (gamma : Q) (raw_next previous : list Q) : list Q :=
  zip_with (fun r p => ((1 - gamma) * r + gamma * p)%Q) raw_next previous.

(** The weight update of the older [spectral_eta_trick], sparse branch, from
    the iteration's permutation and the weights it started with:
    [eta_old = eta_vec], the clamped distances of [p_inv = argsort(new_perm)],
    and the blend when [add_momentum] is truthy. *)
Definition eta_trick_update (cfg : config) (n : Z) (X : coo_matrix)
    (new_perm : list Z) (eta_vec : list Q) : option (list Q) :=
  let eta_old := eta_vec in
  let p_inv := argsort Z.leb new_perm in
  pr ← take_idx p_inv (coo_row X);
  pc ← take_idx p_inv (coo_col X);
  let eta_vec := zip_with (fun a b => Z.abs (a - b)) pr pc in
  let eta_vec := if circular cfg then (fun x => Z.min x (n - x)) <$> eta_vec
                 else eta_vec in
  let eta_vec := inject_Z <$> (Z.max (dh cfg) <$> eta_vec) in
  match add_momentum cfg with
  | Some g =>
      if truthy (Some g)
      then Some (zip_with (fun e o => ((1 - g) * e + g * o)%Q) eta_vec eta_old)
      else Some eta_vec
  | None => Some eta_vec
  end.

(** The state an iteration ends in. *)
Definition flow_state {S : Type} (r : flow S) : S :=
  match r with
  | Break s => s
  | Next s => s
  end.

(** The states the loops of the worked runs start from: identity as best
    permutation, its score, all weights one. *)
Definition dense_start (X : list (list Q)) (best_score0 : Q)
    : loop_state (list (list Q)) :=
  let n := length X in
  LoopState (arange n) best_score0 (replicate n (replicate n 1%Q)) None
            [EvScore None].

Definition sparse_start (X : coo_matrix) (best_score0 : Q)
    : loop_state (list Q) :=
  LoopState (arange (coo_shape X).1) best_score0
            (replicate (length (coo_entries X)) 1%Q) None [EvScore None].

(** A configuration with [add_momentum=None] and all else unchanged. *)
Definition without_momentum (cfg : config) : config :=
  Config (n_iter cfg) (dh cfg) (score_function cfg) (return_score cfg)
         (circular cfg) None (avg_dim cfg) (avg_scaling cfg).

(** ** The other functions of the file *)

(** [p_sum_score(X, p, permut)]: the same two branches with the distances
    raised to the power [p] (left alone for [p = 1]); [normalize] is never
    read.  [p] is a nonnegative integer: numpy rejects negative integer
    powers of integer arrays. *)
Definition power_array (p : nat) (d2diag : list Z) : list Z :=
  if bool_decide (p <> 1%nat) then (fun x => x ^ Z.of_nat p) <$> d2diag
  else d2diag.

Definition p_sum_score (X : matrix) (p : nat) (permut : option (list Z))
    : option Q :=
  match X with
  | Sparse X =>
      d2diag ← sparse_d2diag X permut;
      Some (np_sum (np_multiply (coo_data X) (power_array p d2diag)))
  | Dense X =>
      X_p ← dense_permuted X permut;
      let n := length X_p in
      prod ← multiply_grid X_p (toeplitz (power_array p (arange n)));
      Some (np_sum2 prod)
  end.

(** A matrix of zeros. *)
Definition all_zero (X : matrix) : Prop :=
  match X with
  | Sparse X => Forall (fun e => (e.2 == 0)%Q) (coo_entries X)
  | Dense X => Forall (Forall (fun w => (w == 0)%Q)) X
  end.

(** The [n_components] of the embedding calls of a trace, in order. *)
Definition requested (tr : list event) : list Z :=
  omap (fun e => match e with EvEmbed _ k => Some k | _ => None end) tr.

(** ** The older solver, [spectral_eta_trick] *)

Section Baseline.

(** [SpectralBaseline(...).fit_transform], options fixed: the spectral
    ordering of a matrix, or a failure. *)
Variable fit_transform : matrix -> option (list Z).

(** [np.random.permutation(n)], the draw taken as given. *)
Variable random_permutation : nat -> list Z.

(** The body of the sparse loop.  The trace records the scoring and the
    weights; [avg_dim] and [avg_scaling] of the configuration are not read. *)
Definition eta_trick_sparse_body (cfg : config) (X : coo_matrix)
    (st : loop_state (list Q)) : option (flow (loop_state (list Q))) :=
  let n := Z.of_nat (coo_shape X).1 in
  let X_w := reweight_sparse X (eta st) in
  let eta_old := if truthy (add_momentum cfg) then Some (eta st) else eta_old st in
  new_perm ← fit_transform (Sparse X_w);
  if bool_decide (new_perm = best_perm st)
  then Some (Break (LoopState (best_perm st) (best_score st) (eta st) eta_old
                              (trace st)))
  else
    new_score ← compute_score (Sparse X) (score_function cfg) (dh cfg)
                              (Some new_perm) false;
    let tr := trace st ++ [EvScore (Some new_perm)] in
    let best := if Qlt_bool new_score (best_score st)
                then new_perm else best_perm st in
    eta_vec ← eta_trick_update cfg n X new_perm (eta st);
    Some (Next (LoopState best (best_score st) eta_vec eta_old
                          (tr ++ [EvWeights eta_vec]))).

(** The dense weight update:
    [abs(np.tile(p_inv, n) - np.repeat(p_inv, n))], the circular wrap, the
    reshape and the clamp [np.maximum(dh, eta_mat)]. *)
Definition eta_trick_update_dense (cfg : config) (n : nat) (new_perm : list Z)
    : option (list (list Q)) :=
  let p_inv := argsort Z.leb new_perm in
  let eta_mat := zip_with (fun a b => Z.abs (a - b))
                          (np_tile p_inv n) (np_repeat p_inv n) in
  let eta_mat : list Z :=
    if circular cfg
    then fmap (M:=list) (fun x => Z.min x (Z.of_nat n - x)) eta_mat
    else eta_mat in
  grid ← reshape n n eta_mat;
  Some (fmap (M:=list)
          (fmap (M:=list) (fun x => inject_Z (Z.max (dh cfg) x))) grid).

(** The body of the dense loop; it has no momentum. *)
Definition eta_trick_dense_body (cfg : config) (X : list (list Q))
    (st : loop_state (list (list Q))) : option (flow (loop_state (list (list Q)))) :=
  let n := (dense_shape X).1 in
  let X_w := reweight_dense X (eta st) in
  new_perm ← fit_transform (Dense X_w);
  if bool_decide (new_perm = best_perm st)
  then Some (Break st)
  else
    new_score ← compute_score (Dense X) (score_function cfg) (dh cfg)
                              (Some new_perm) false;
    let tr := trace st ++ [EvScore (Some new_perm)] in
    let best := if Qlt_bool new_score (best_score st)
                then new_perm else best_perm st in
    eta_mat ← eta_trick_update_dense cfg n new_perm;
    Some (Next (LoopState best (best_score st) eta_mat (eta_old st)
                          (tr ++ [EvWeights (concat eta_mat)]))).

(** [spectral_eta_trick(X, ...)]: no short cut for small inputs, a random
    first permutation. *)
Definition spectral_eta_trick (cfg : config) (X : matrix)
    : option ((list Z * option Q) * list event) :=
  let '(n, n2) := shape X in
  if bool_decide (n = n2) then
    let best_perm0 := random_permutation n in
    best_score0 ← compute_score X (score_function cfg) (dh cfg)
                                (Some best_perm0) false;
    let tr := [EvScore (Some best_perm0)] in
    match X with
    | Sparse Xs =>
        let st := LoopState best_perm0 best_score0
                    (replicate (length (coo_entries Xs)) 1%Q) None tr in
        st' ← loop (eta_trick_sparse_body cfg Xs) (Z.to_nat (n_iter cfg)) st;
        Some (result cfg (best_perm st') (best_score st'), trace st')
    | Dense Xd =>
        let st := LoopState best_perm0 best_score0
                    (replicate n (replicate n 1%Q)) None tr in
        st' ← loop (eta_trick_dense_body cfg Xd) (Z.to_nat (n_iter cfg)) st;
        Some (result cfg (best_perm st') (best_score st'), trace st')
    end
  else None.

End Baseline.

(** A baseline that always returns the same ordering. *)
Definition fixed_ordering (order : list Z) (X_w : matrix) : option (list Z) :=
  Some order.

(** ** The experimental solver, [spectral_eta_trick2] *)

Section Experimental.

(** [spectral_embedding(X_w)] with every option at its default. *)
Variable spectral_embedding_default : matrix -> option (list (list Q)).

(** Sparse weights: [np.sum(abs(embedding[r, :3] - embedding[c, :3]), axis=1)],
    the distance of the two items in the first three coordinates. *)
Definition embedding_distance (X : coo_matrix) (embedding : list (list Q))
    : option (list Q) :=
  er ← take_idx embedding (coo_row X);
  ec ← take_idx embedding (coo_col X);
  Some (zip_with (fun a b : list Q =>
                    np_sum (zip_with (fun x y => Qabs (x - y)) (take 3 a) (take 3 b)))
                 er ec).

(** Dense weights, one round: [d_perm = (1./(1 + dim)) * np.argsort(d_perm)]
    and [abs(np.tile(d_perm, n) - np.repeat(d_perm, n))]. *)
Definition rank_distance (n : nat) (embedding : list (list Q)) (dim : nat)
    : option (list Q) :=
  ranks ← dim_ranks embedding dim;
  let d_perm : list Q :=
    fmap (M:=list) (fun k => (1 / inject_Z (1 + Z.of_nat dim) * inject_Z k)%Q) ranks in
  Some (zip_with (fun a b => Qabs (a - b)) (np_tile d_perm n) (np_repeat d_perm n)).

(** [d_ = min(n - 1, 5)] rounds on top of [np.identity(n).flatten()], then
    the reshape. *)
Definition update2_dense (n : nat) (embedding : list (list Q))
    : option (list (list Q)) :=
  flat ← accumulate (rank_distance n embedding)
                    (seq 0 (Z.to_nat (Z.min (Z.of_nat n - 1) 5)))
                    (identity_flat n);
  reshape n n flat.

(** The body of the sparse loop; the trace records scoring and weights. *)
Definition sparse_body2 (p : nat) (X : coo_matrix)
    (st : loop_state (list Q)) : option (flow (loop_state (list Q))) :=
  let n := Z.of_nat (coo_shape X).1 in
  let X_w := reweight_sparse X (eta st) in
  embedding ← spectral_embedding_default (Sparse X_w);
  col0 ← column embedding 0;
  let new_perm := argsort Qle_bool col0 in
  if bool_decide (new_perm = best_perm st) then Some (Break st)
  else
    first ← getitem new_perm 0;
    last ← getitem new_perm (-1);
    let flipped := bool_decide (first > last) in
    let embedding := if flipped then reverse embedding else embedding in
    let new_perm := if flipped then flip_perm n new_perm else new_perm in
    new_score ← p_sum_score (Sparse X) p (Some new_perm);
    let tr := trace st ++ [EvScore (Some new_perm)] in
    let best := if Qlt_bool new_score (best_score st)
                then new_perm else best_perm st in
    eta_vec ← embedding_distance X embedding;
    Some (Next (LoopState best (best_score st) eta_vec (eta_old st)
                          (tr ++ [EvWeights eta_vec]))).

(** The body of the dense loop: no stop on a match, no orientation. *)
Definition dense_body2 (p : nat) (X : list (list Q))
    (st : loop_state (list (list Q))) : option (flow (loop_state (list (list Q)))) :=
  let n := (dense_shape X).1 in
  let X_w := reweight_dense X (eta st) in
  embedding ← spectral_embedding_default (Dense X_w);
  col0 ← column embedding 0;
  let new_perm := argsort Qle_bool col0 in
  new_score ← p_sum_score (Dense X) p (Some new_perm);
  let tr := trace st ++ [EvScore (Some new_perm)] in
  let best := if Qlt_bool new_score (best_score st)
              then new_perm else best_perm st in
  eta_mat ← update2_dense n embedding;
  Some (Next (LoopState best (best_score st) eta_mat (eta_old st)
                        (tr ++ [EvWeights (concat eta_mat)]))).

(** [spectral_eta_trick2(X, n_iter, p, return_score, add_momentum)]; [dh] and
    [circular] are not read, [add_momentum] only creates [eta_old]. *)
Definition spectral_eta_trick2 (n_iter : Z) (p : nat) (return_score : bool)
    (add_momentum : option Q) (X : matrix)
    : option ((list Z * option Q) * list event) :=
  let '(n, n2) := shape X in
  if bool_decide (n = n2) then
    if bool_decide (n < 3)%nat
    then Some ((arange n, if return_score then Some (-1)%Q else None), [])
    else
      let best_perm0 := arange n in
      let best_score0 := inject_Z (Z.of_nat n ^ (Z.of_nat p + 2)) in
      let ret (st_perm : list Z) (st_score : Q) :=
        (st_perm, if return_score then Some st_score else None) in
      match X with
      | Sparse Xs =>
          let len := length (coo_entries Xs) in
          let st := LoopState best_perm0 best_score0 (replicate len 1%Q)
                      (if truthy add_momentum
                       then Some (replicate len 1%Q) else None) [] in
          st' ← loop (sparse_body2 p Xs) (Z.to_nat n_iter) st;
          Some (ret (best_perm st') (best_score st'), trace st')
      | Dense Xd =>
          let st := LoopState best_perm0 best_score0
                      (replicate n (replicate n 1%Q)) None [] in
          st' ← loop (dense_body2 p Xd) (Z.to_nat n_iter) st;
          Some (ret (best_perm st') (best_score st'), trace st')
      end
  else None.

End Experimental.

(** An embedding routine with default options that puts item [i] at
    [coords[i]] in each of eight components. *)
Definition line_embedding_default (coords : list Q) (X_w : matrix)
    : option (list (list Q)) :=
  Some ((fun x => replicate 8 x) <$> coords).

(** ** The estimator class [SpectralEtaTrick]

    An instance is the record of its attributes.  [norm_adjacency] and
    [eigen_solver] are only handed on to the embedding routine and are part of
    that parameter.  [ordering] does not exist before the first [fit]: reading
    it then raises, which is [None] here. *)
Module SpectralEtaTrick.

Record self : Type := Self {
  n_iter : Z;
  dh : Z;
  return_score : bool;
  circular : bool;
  avg_dim : Z;
  avg_scaling : bool;
  ordering : option (list Z * option Q)
}.

(** [__init__]: the attributes as given, no [ordering] yet. *)
Definition init (n_iter dh : Z) (return_score circular : bool) (avg_dim : Z)
    (avg_scaling : bool) : self :=
  Self n_iter dh return_score circular avg_dim avg_scaling None.

(** [SpectralEtaTrick()]. *)
Definition init_default : self := init 15 1 false false 3 true.

(** The keyword arguments [fit] passes to [spectral_eta_trick3]; what it does
    not pass keeps the default of the signature: [score_function='Huber'],
    [add_momentum=None]. *)
Definition fit_config (s : self) : config :=
  Config (n_iter s) (dh s) "Huber" (return_score s) (circular s) None
         (avg_dim s) (avg_scaling s).

Section Methods.

Variable spectral_embedding : matrix -> Z -> option (list (list Q)).
Variable np_sqrt : Z -> Q.

(** [fit(self, X)]: stores what the call returns in [self.ordering] and
    returns [self]; next to it the trace of the call. *)
Definition fit (s : self) (X : matrix) : option (self * list event) :=
  '(ordering_, tr) ← spectral_eta_trick3 spectral_embedding np_sqrt (fit_config s) X;
  Some (Self (n_iter s) (dh s) (return_score s) (circular s) (avg_dim s)
             (avg_scaling s) (Some ordering_), tr).

(** [fit_transform(self, X)]: [self.fit(X)], then [self.ordering]. *)
Definition fit_transform (s : self) (X : matrix)
    : option (self * (list Z * option Q) * list event) :=
  '(s', tr) ← fit s X;
  o ← ordering s';
  Some (s', o, tr).

End Methods.

End SpectralEtaTrick.

(** * Properties *)

(** ** Arrays rewritten through index masks *)

Section ArrayLemmas.

Lemma where_from_lower k mask i : i ∈ where_from k mask -> (k <= i)%nat.
Proof.
  revert k. induction mask as [|b m IH]; intros k; simpl.
  - intros H. inversion H.
  - destruct b.
    + rewrite elem_of_cons. intros [->|H]; [lia|]. apply IH in H. lia.
    + intros H. apply IH in H. lia.
Qed.

Lemma get_items_insert a idx k x :
  k ∉ idx -> get_items (<[k := x]> a) idx = get_items a idx.
Proof.
  intros Hk. unfold get_items. apply list_fmap_ext.
  intros j i Hi. rewrite list_lookup_insert_ne; [done|].
  intros ->. apply Hk. eapply list_elem_of_lookup_2; eauto.
Qed.

Lemma set_items_where (g : Z -> Z) mask : forall a pre,
  length mask = length a ->
  set_items (pre ++ a) (where_from (length pre) mask)
            (g <$> get_items (pre ++ a) (where_from (length pre) mask))
  = pre ++ zip_with (fun (b : bool) x => if b then g x else x) mask a.
Proof.
  induction mask as [|b m IH]; intros [|x a] pre Hlen; simpl in *; try done.
  specialize (IH a (pre ++ [if b then g x else x])).
  rewrite length_app in IH. simpl in IH.
  replace (length pre + 1)%nat with (S (length pre)) in IH by lia.
  rewrite <- !app_assoc in IH. simpl in IH.
  destruct b; simpl.
  - rewrite list_lookup_middle; [|done]. simpl.
    assert (Hins : <[length pre := g x]> (pre ++ x :: a) = pre ++ g x :: a).
    { rewrite insert_app_r_alt; [|lia]. by rewrite Nat.sub_diag. }
    rewrite Hins.
    rewrite <- (get_items_insert (pre ++ x :: a) _ (length pre) (g x)).
    + rewrite Hins. apply IH. lia.
    + intros H. apply where_from_lower in H. lia.
  - apply IH. lia.
Qed.

Lemma iop_where g mask a :
  length mask = length a ->
  iop g a (np_where mask) = zip_with (fun (b : bool) x => if b then g x else x) mask a.
Proof. intros H. apply (set_items_where g mask a [] H). Qed.

Lemma fill_where c mask a :
  length mask = length a ->
  fill_items c a (np_where mask) = zip_with (fun (b : bool) x => if b then c else x) mask a.
Proof.
  intros H. unfold fill_items.
  replace (replicate (length (np_where mask)) c)
    with ((fun _ => c) <$> get_items a (np_where mask)).
  - apply (set_items_where (fun _ => c) mask a [] H).
  - unfold get_items. rewrite <- list_fmap_compose.
    generalize (np_where mask). intros l.
    induction l as [|i l IH]; simpl; [done|]. f_equal. apply IH.
Qed.

Lemma is_in_band_map dh circular n d :
  is_in_band dh circular n d = in_band dh circular n <$> d.
Proof.
  unfold is_in_band, in_band. destruct circular; simpl.
  - induction d as [|x d IH]; simpl; [done|]. f_equal. apply IH.
  - apply list_fmap_ext. intros. by rewrite orb_false_r.
Qed.

Lemma zip_with_mask_map {A} (m : Z -> bool) (h : bool -> A -> A) (k : Z -> A) d :
  zip_with h (m <$> d) (k <$> d) = (fun x => h (m x) (k x)) <$> d.
Proof. induction d as [|x d IH]; simpl; [done|]. f_equal. apply IH. Qed.

Lemma iop_mask (m : Z -> bool) (g k : Z -> Z) d :
  iop g (k <$> d) (np_where (m <$> d))
  = (fun x => if m x then g (k x) else k x) <$> d.
Proof.
  rewrite iop_where by (by rewrite !length_fmap).
  apply (zip_with_mask_map m (fun (b : bool) y => if b then g y else y) k).
Qed.

Lemma fill_mask (m : Z -> bool) (c : Z) (k : Z -> Z) d :
  fill_items c (k <$> d) (np_where (m <$> d))
  = (fun x => if m x then c else k x) <$> d.
Proof.
  rewrite fill_where by (by rewrite !length_fmap).
  apply (zip_with_mask_map m (fun (b : bool) y => if b then c else y) k).
Qed.

(** The mask-and-update code of every branch comes to one function applied
    to each distance. *)
Lemma loss_array_pointwise sf dh circular n d :
  loss_array sf dh circular n d = loss_term sf dh circular n <$> d.
Proof.
  unfold loss_array, loss_term.
  destruct (String.eqb sf "2SUM"); [done|].
  rewrite is_in_band_map, <- list_fmap_compose.
  pose proof (iop_mask (in_band dh circular n) (fun x => x ^ 2) id d) as H1.
  rewrite list_fmap_id in H1.
  destruct (String.eqb sf "Huber"); [|destruct (String.eqb sf "R2S")].
  - rewrite H1, !iop_mask.
    apply list_fmap_ext. intros i x _. simpl.
    destruct (in_band dh circular n x); simpl; lia.
  - rewrite H1, fill_mask.
    apply list_fmap_ext. intros i x _. simpl.
    by destruct (in_band dh circular n x).
  - by rewrite list_fmap_id.
Qed.

End ArrayLemmas.

(** ** Sums of rationals *)

Section Sums.

Lemma np_sum_app l1 l2 : (np_sum (l1 ++ l2) == np_sum l1 + np_sum l2)%Q.
Proof.
  induction l1 as [|x l1 IH]; simpl.
  - ring.
  - rewrite IH. ring.
Qed.

Lemma weighted_sum_cons f w d ps :
  weighted_sum f ((w, d) :: ps) = (w * inject_Z (f d) + weighted_sum f ps)%Q.
Proof. reflexivity. Qed.

Lemma weighted_sum_nonzero f ps :
  (weighted_sum f (nonzero ps) == weighted_sum f ps)%Q.
Proof.
  unfold nonzero.
  induction ps as [|[w d] ps IH]; [reflexivity|].
  rewrite filter_cons. simpl. case_decide as Hw.
  - by rewrite !weighted_sum_cons, IH.
  - rewrite weighted_sum_cons, IH.
    apply not_false_iff_true, Qeq_bool_iff in Hw.
    rewrite Hw. ring.
Qed.

Lemma weighted_sum_zip f v d :
  np_sum (np_multiply v (f <$> d)) = weighted_sum f (zip v d).
Proof.
  unfold weighted_sum, np_multiply. f_equal.
  revert d. induction v as [|x v IH]; intros [|k d]; simpl; try done.
  f_equal. apply IH.
Qed.

End Sums.

(** ** Indexing with valid permutations *)

Section Indexing.

Lemma length_arange n : length (arange n) = n.
Proof. unfold arange. by rewrite length_fmap, length_seq. Qed.

Lemma elem_of_arange n x : x ∈ arange n <-> 0 <= x < Z.of_nat n.
Proof.
  unfold arange. rewrite list_elem_of_fmap. split.
  - intros (k & -> & Hk). apply elem_of_seq in Hk. lia.
  - intros H. exists (Z.to_nat x). split; [lia|]. apply elem_of_seq. lia.
Qed.

Lemma lookup_arange n k : (k < n)%nat -> arange n !! k = Some (Z.of_nat k).
Proof.
  intros H. unfold arange. rewrite list_lookup_fmap, lookup_seq_lt; [done|lia].
Qed.

Lemma getitem_range {A} (a : list A) i :
  0 <= i < Z.of_nat (length a) -> getitem a i = a !! Z.to_nat i.
Proof. intros H. unfold getitem. by rewrite bool_decide_eq_true_2. Qed.

Lemma getitem_is_Some {A} (a : list A) i :
  0 <= i < Z.of_nat (length a) -> is_Some (getitem a i).
Proof.
  intros H. rewrite getitem_range by done. apply lookup_lt_is_Some. lia.
Qed.

Lemma getitem_elem_of {A} (a : list A) i x : getitem a i = Some x -> x ∈ a.
Proof.
  unfold getitem. repeat case_bool_decide; try done;
    intros Hx; by eapply list_elem_of_lookup_2.
Qed.

Lemma take_idx_is_Some {A} (a : list A) idx :
  Forall (fun i => 0 <= i < Z.of_nat (length a)) idx -> is_Some (take_idx a idx).
Proof.
  intros H. apply mapM_is_Some. eapply Forall_impl; [exact H|].
  intros i Hi. by apply getitem_is_Some.
Qed.

Lemma take_idx_elem_of {A} (a : list A) idx l :
  take_idx a idx = Some l -> Forall (fun x => x ∈ a) l.
Proof.
  intros H. apply mapM_Some in H.
  induction H as [|i x idx l Hx _ IH]; constructor; [|done].
  by eapply getitem_elem_of.
Qed.

Lemma take_idx_length {A} (a : list A) idx l :
  take_idx a idx = Some l -> length l = length idx.
Proof. intros H. symmetry. by eapply length_mapM. Qed.

Lemma perm_length n p : p ≡ₚ arange n -> length p = n.
Proof. intros H. by rewrite H, length_arange. Qed.

Lemma perm_range n p x : p ≡ₚ arange n -> x ∈ p -> 0 <= x < Z.of_nat n.
Proof. intros H Hx. rewrite H in Hx. by apply elem_of_arange. Qed.

Lemma perm_indices n p : p ≡ₚ arange n ->
  Forall (fun i => 0 <= i < Z.of_nat n) p.
Proof. intros H. apply Forall_forall. intros x. by apply perm_range. Qed.

End Indexing.

(** ** The score always comes out on well-formed inputs *)

Section Total.

Lemma coo_row_range n X :
  Forall (fun e => (e.1.1 < n)%nat /\ (e.1.2 < n)%nat) (coo_entries X) ->
  Forall (fun i => 0 <= i < Z.of_nat n) (coo_row X)
  /\ Forall (fun i => 0 <= i < Z.of_nat n) (coo_col X).
Proof.
  intros H. unfold coo_row, coo_col. rewrite !Forall_fmap.
  split; (eapply Forall_impl; [exact H|]); simpl; lia.
Qed.

(** The sparse distances exist and stay below [n]. *)
Lemma sparse_d2diag_ok n X perm :
  square n (Sparse X) -> valid_perm n perm ->
  exists d, sparse_d2diag X perm = Some d
            /\ Forall (fun x => 0 <= x < Z.of_nat n) d.
Proof.
  intros [Hs Hwf] Hp. apply coo_row_range in Hwf as [Hr Hc].
  assert (Hbound : forall l1 l2,
    Forall (fun i => 0 <= i < Z.of_nat n) l1 ->
    Forall (fun i => 0 <= i < Z.of_nat n) l2 ->
    Forall (fun x => 0 <= x < Z.of_nat n)
           (zip_with (fun a b => Z.abs (a - b)) l1 l2)).
  { intros l1 l2 H1. revert l2.
    induction H1 as [|a l1 Ha _ IH]; intros l2 H2; simpl; [constructor|].
    destruct H2 as [|b l2 Hb H2]; constructor; [lia|by apply IH]. }
  destruct perm as [p|]; simpl in *.
  - pose proof (perm_length _ _ Hp) as Hlen.
    destruct (take_idx_is_Some p (coo_row X)) as [pr Hpr]; [by rewrite Hlen|].
    destruct (take_idx_is_Some p (coo_col X)) as [pc Hpc]; [by rewrite Hlen|].
    rewrite Hpr, Hpc. simpl. eexists; split; [done|].
    apply Hbound.
    + eapply Forall_impl; [by eapply take_idx_elem_of|].
      intros x. by apply perm_range.
    + eapply Forall_impl; [by eapply take_idx_elem_of|].
      intros x. by apply perm_range.
  - eexists; split; [done|]. by apply Hbound.
Qed.

Lemma take_idx_ok {A} (a : list A) n p :
  length a = n -> p ≡ₚ arange n ->
  exists l, take_idx a p = Some l /\ length l = n /\ Forall (fun x => x ∈ a) l.
Proof.
  intros Hn Hp.
  destruct (take_idx_is_Some a p) as [l Hl].
  { rewrite Hn. by apply perm_indices. }
  exists l. split; [done|]. split.
  - apply take_idx_length in Hl. rewrite Hl. by eapply perm_length.
  - by eapply take_idx_elem_of.
Qed.

Lemma mapM_Forall_ok {A B} (f : A -> option B) (P : A -> B -> Prop) l :
  Forall (fun x => exists y, f x = Some y /\ P x y) l ->
  exists k, mapM f l = Some k /\ Forall2 P l k.
Proof.
  induction 1 as [|x l (y & Hy & HP) _ (k & Hk & HF)].
  - exists []. split; [done|constructor].
  - exists (y :: k). split; [|by constructor].
    apply mapM_Some. constructor; [done|]. by apply mapM_Some.
Qed.

(** The reordered dense grid exists, is [n] by [n], and keeps only cells of
    [X]. *)
Lemma dense_permuted_ok n X perm :
  square n (Dense X) -> valid_perm n perm ->
  exists X_p, dense_permuted X perm = Some X_p
              /\ length X_p = n
              /\ Forall (fun r => length r = n) X_p
              /\ Forall (Forall (fun w => exists r, r ∈ X /\ w ∈ r)) X_p.
Proof.
  intros [Hn Hrows] Hp. destruct perm as [p|]; simpl in *.
  - destruct (take_idx_ok X n p Hn Hp) as (rows & Hr & Hrl & Hin).
    rewrite Hr. simpl.
    destruct (mapM_Forall_ok (fun row => take_idx row p)
      (fun row row' => length row' = n
                       /\ Forall (fun w => exists r, r ∈ X /\ w ∈ r) row') rows)
      as (X_p & HX & HF).
    { eapply Forall_impl; [exact Hin|]. intros row Hrow. simpl in Hrow.
      rewrite Forall_forall in Hrows. specialize (Hrows _ Hrow).
      destruct (take_idx_ok row n p Hrows Hp) as (row' & H1 & H2 & H3).
      exists row'. repeat split; try done.
      eapply Forall_impl; [exact H3|]. intros w Hw. eauto. }
    exists X_p. split; [done|]. split; [|split].
    + apply Forall2_length in HF. lia.
    + eapply Forall2_Forall_r; [exact HF|]. apply Forall_true. tauto.
    + eapply Forall2_Forall_r; [exact HF|]. apply Forall_true. tauto.
  - exists X. repeat split; try done.
    apply Forall_forall. intros r Hr. apply Forall_forall. intros w Hw. eauto.
Qed.

End Total.

(** ** Normal forms of the two branches *)

Section NormalForms.

Lemma toeplitz_length c : length (toeplitz c) = length c.
Proof. unfold toeplitz. by rewrite length_fmap, length_seq. Qed.

Lemma toeplitz_rows c : Forall (fun r => length r = length c) (toeplitz c).
Proof.
  unfold toeplitz. apply Forall_fmap, Forall_true. intros a. simpl.
  by rewrite length_fmap, length_seq.
Qed.

Lemma multiply_grid_ok n X_p D :
  length X_p = n -> Forall (fun r => length r = n) X_p ->
  length D = n -> Forall (fun r => length r = n) D ->
  multiply_grid X_p D = Some (zip_with np_multiply X_p D).
Proof.
  intros H1 H2 H3 H4. unfold multiply_grid.
  rewrite bool_decide_eq_true_2; [done|]. split; [lia|].
  apply Forall2_same_length_lookup_2; [lia|].
  intros i r d Hr Hd.
  rewrite Forall_forall in H2. rewrite Forall_forall in H4.
  rewrite (H2 r), (H4 d); [done| |]; by eapply list_elem_of_lookup_2.
Qed.

Lemma compute_score_sparse n X perm sf dh c :
  square n (Sparse X) -> valid_perm n perm ->
  exists d, sparse_d2diag X perm = Some d
    /\ Forall (fun x => 0 <= x < Z.of_nat n) d
    /\ compute_score (Sparse X) sf dh perm c
       = Some (np_sum (np_multiply (coo_data X)
                         (loss_term sf dh c (Z.of_nat n) <$> d))).
Proof.
  intros HX Hp. destruct (sparse_d2diag_ok n X perm HX Hp) as (d & Hd & Hb).
  exists d. split; [done|]. split; [done|].
  destruct HX as [Hs _]. simpl. rewrite Hd, Hs. simpl.
  by rewrite loss_array_pointwise.
Qed.

Lemma compute_score_dense n X perm sf dh c :
  square n (Dense X) -> valid_perm n perm ->
  exists X_p, dense_permuted X perm = Some X_p
    /\ length X_p = n
    /\ Forall (fun r => length r = n) X_p
    /\ Forall (Forall (fun w => exists r, r ∈ X /\ w ∈ r)) X_p
    /\ compute_score (Dense X) sf dh perm c
       = Some (np_sum2 (zip_with np_multiply X_p
                 (toeplitz (loss_term sf dh c (Z.of_nat n) <$> arange n)))).
Proof.
  intros HX Hp.
  destruct (dense_permuted_ok n X perm HX Hp) as (X_p & HXp & Hl & Hr & Hc).
  exists X_p. repeat (split; [done|]).
  simpl. rewrite HXp. simpl. rewrite Hl, loss_array_pointwise.
  assert (Hlen : length (loss_term sf dh c (Z.of_nat n) <$> arange n) = n)
    by (by rewrite length_fmap, length_arange).
  rewrite (multiply_grid_ok n); try done.
  - by rewrite toeplitz_length.
  - pose proof (toeplitz_rows (loss_term sf dh c (Z.of_nat n) <$> arange n)) as H.
    by rewrite Hlen in H.
Qed.

(** On well-formed arguments [compute_score] returns a score. *)
Lemma compute_score_total n X perm sf dh c :
  square n X -> valid_perm n perm -> is_Some (compute_score X sf dh perm c).
Proof.
  intros HX Hp. destruct X as [X|X].
  - destruct (compute_score_sparse n X perm sf dh c HX Hp) as (d & _ & _ & ->).
    by eexists.
  - destruct (compute_score_dense n X perm sf dh c HX Hp)
      as (X_p & _ & _ & _ & _ & ->).
    by eexists.
Qed.

(** A cell of the Toeplitz grid of [f <$> arange n] is [f] of its distance
    to the diagonal. *)
Lemma toeplitz_cell (f : Z -> Z) n a b :
  (a < n)%nat -> (b < n)%nat ->
  default 0 ((f <$> arange n) !! Z.to_nat (Z.abs (Z.of_nat a - Z.of_nat b)))
  = f (Z.abs (Z.of_nat a - Z.of_nat b)).
Proof.
  intros Ha Hb. rewrite list_lookup_fmap, lookup_arange by lia. simpl.
  f_equal. lia.
Qed.

Lemma grid_product (f : Z -> Z) n X_p :
  length X_p = n -> Forall (fun r => length r = n) X_p ->
  zip_with np_multiply X_p (toeplitz (f <$> arange n))
  = (fun a => (fun b => (cell X_p a b
                 * inject_Z (f (Z.abs (Z.of_nat a - Z.of_nat b))))%Q)
              <$> seq 0 n) <$> seq 0 n.
Proof.
  intros Hl Hr. unfold toeplitz.
  rewrite length_fmap, length_arange.
  apply list_eq. intros a.
  rewrite lookup_zip_with, !list_lookup_fmap.
  destruct (decide (a < n)%nat) as [Ha|Ha].
  - rewrite lookup_seq_lt by done. simpl.
    destruct (lookup_lt_is_Some_2 X_p a) as [row Hrow]; [lia|].
    rewrite Hrow. simpl. f_equal.
    assert (Hrl : length row = n).
    { rewrite Forall_forall in Hr. apply Hr. by eapply list_elem_of_lookup_2. }
    unfold np_multiply. apply list_eq. intros b.
    rewrite lookup_zip_with, !list_lookup_fmap.
    destruct (decide (b < n)%nat) as [Hb|Hb].
    + rewrite lookup_seq_lt by done. simpl.
      destruct (lookup_lt_is_Some_2 row b) as [w Hw]; [lia|].
      rewrite Hw. simpl. unfold cell. rewrite Hrow. simpl. rewrite Hw. simpl.
      by rewrite toeplitz_cell.
    + rewrite lookup_seq_ge by lia. simpl.
      rewrite (lookup_ge_None_2 row b) by lia. done.
  - rewrite lookup_seq_ge by lia. simpl.
    rewrite (lookup_ge_None_2 X_p a) by lia. done.
Qed.

Lemma np_sum_bind {A B} (g : A -> list B) (h : B -> Q) l :
  (np_sum (h <$> (l ≫= g)) == np_sum2 ((fun a => h <$> g a) <$> l))%Q.
Proof.
  unfold np_sum2. induction l as [|x l IH]; [reflexivity|].
  rewrite bind_cons, fmap_app, np_sum_app, IH. reflexivity.
Qed.

(** The sparse distance array, entry by entry. *)
Lemma take_idx_fmap {A} (a : list Z) (g : A -> nat) l l' :
  take_idx a ((fun x => Z.of_nat (g x)) <$> l) = Some l' ->
  l' = (fun x => default 0 (a !! g x)) <$> l.
Proof.
  intros H. apply mapM_Some in H. apply Forall2_fmap_l in H.
  induction H as [|x y l l' Hxy _ IH]; [done|].
  rewrite fmap_cons. f_equal; [|done].
  unfold getitem, compose in Hxy. cbv beta zeta in Hxy.
  case_bool_decide; [rewrite Nat2Z.id in Hxy; by rewrite Hxy|].
  case_bool_decide; [lia|done].
Qed.

Lemma sparse_d2diag_entries X perm d :
  sparse_d2diag X perm = Some d ->
  d = (fun e => Z.abs (perm_at perm e.1.1 - perm_at perm e.1.2))
        <$> coo_entries X.
Proof.
  assert (Hzip : forall (f1 f2 : nat * nat * Q -> Z) l,
    zip_with (fun a b => Z.abs (a - b)) (f1 <$> l) (f2 <$> l)
    = (fun e => Z.abs (f1 e - f2 e)) <$> l).
  { intros f1 f2 l. induction l as [|e l IH]; simpl; [done|]. f_equal. apply IH. }
  unfold sparse_d2diag, coo_row, coo_col. destruct perm as [p|].
  - destruct (take_idx p ((fun e => Z.of_nat e.1.1) <$> coo_entries X))
      as [pr|] eqn:Hr; simpl; [|done].
    destruct (take_idx p ((fun e => Z.of_nat e.1.2) <$> coo_entries X))
      as [pc|] eqn:Hc; simpl; [|done].
    intros [= <-].
    apply (take_idx_fmap p (fun e : nat * nat * Q => e.1.1)) in Hr.
    apply (take_idx_fmap p (fun e : nat * nat * Q => e.1.2)) in Hc.
    subst pr pc. apply Hzip.
  - intros [= <-]. apply Hzip.
Qed.

(** The reordered dense grid, cell by cell. *)
Lemma take_idx_lookup {A} (a : list A) p l i x :
  take_idx a p = Some l -> Forall (fun k => 0 <= k) p ->
  l !! i = Some x ->
  exists k, p !! i = Some k /\ a !! Z.to_nat k = Some x.
Proof.
  intros H Hp Hx. apply mapM_Some in H.
  destruct (Forall2_lookup_r _ _ _ _ _ H Hx) as (k & Hk & Hg).
  exists k. split; [done|].
  rewrite Forall_forall in Hp. specialize (Hp k (list_elem_of_lookup_2 _ _ _ Hk)).
  unfold getitem in Hg. case_bool_decide; [done|]. case_bool_decide; [lia|done].
Qed.

Lemma dense_permuted_cell n X perm X_p a b :
  valid_perm n perm -> dense_permuted X perm = Some X_p ->
  length X_p = n -> Forall (fun r => length r = n) X_p ->
  (a < n)%nat -> (b < n)%nat ->
  cell X_p a b = cell X (Z.to_nat (perm_at perm a)) (Z.to_nat (perm_at perm b)).
Proof.
  intros Hp HX Hl Hr Ha Hb. destruct perm as [p|]; simpl in *.
  - assert (Hpos : Forall (fun k => 0 <= k) p).
    { eapply Forall_impl; [by apply perm_indices|]. simpl. lia. }
    destruct (take_idx X p) as [rows|] eqn:Hrows; [|done]. simpl in HX.
    apply mapM_Some in HX.
    destruct (lookup_lt_is_Some_2 X_p a) as [row' Hrow']; [lia|].
    destruct (Forall2_lookup_r _ _ _ _ _ HX Hrow') as (row & Hrow & Htake).
    destruct (take_idx_lookup _ _ _ _ _ Hrows Hpos Hrow) as (ka & Hka & HXa).
    assert (is_Some (row' !! b)) as [w Hw].
    { apply lookup_lt_is_Some_2. rewrite Forall_forall in Hr.
      rewrite (Hr row'); [lia|]. by eapply list_elem_of_lookup_2. }
    destruct (take_idx_lookup _ _ _ _ _ Htake Hpos Hw) as (kb & Hkb & Hrb).
    unfold cell. rewrite Hrow', Hka, Hkb. simpl. rewrite Hw, HXa. simpl.
    by rewrite Hrb.
  - injection HX as <-. by rewrite !Nat2Z.id.
Qed.

(** Both branches return the sum of [weight * loss_term d] over the nonzero
    pairs. *)
Lemma compute_score_pairs n X perm sf dh c :
  square n X -> valid_perm n perm ->
  exists s, compute_score X sf dh perm c = Some s
    /\ (s == weighted_sum (loss_term sf dh c (Z.of_nat n))
                          (nonzero (pairs X perm)))%Q.
Proof.
  intros HX Hp. destruct X as [X|X].
  - destruct (compute_score_sparse n X perm sf dh c HX Hp) as (d & Hd & _ & Hs).
    eexists. split; [exact Hs|].
    rewrite weighted_sum_nonzero, weighted_sum_zip.
    apply sparse_d2diag_entries in Hd. subst d.
    unfold pairs, coo_data.
    assert (E : forall (g : nat * nat * Q -> Z) l,
              zip (snd <$> l) (g <$> l) = (fun e => (e.2, g e)) <$> l).
    { intros g l. induction l as [|e l IH]; simpl; [done|]. f_equal. apply IH. }
    by rewrite E.
  - destruct (compute_score_dense n X perm sf dh c HX Hp)
      as (X_p & HXp & Hl & Hr & _ & Hs).
    eexists. split; [exact Hs|].
    rewrite weighted_sum_nonzero. unfold weighted_sum, pairs.
    destruct HX as [Hn _].
    rewrite np_sum_bind, Hn, (grid_product _ n) by done.
    assert (E : forall l1 l2 : list (list Q),
              l1 = l2 -> (np_sum2 l1 == np_sum2 l2)%Q) by (by intros ?? ->).
    apply E, list_fmap_ext. intros i a Ha.
    apply lookup_seq in Ha as [-> Ha]. simpl.
    rewrite <- list_fmap_compose.
    apply list_fmap_ext. intros j b Hb.
    apply lookup_seq in Hb as [-> Hb]. simpl.
    by rewrite (dense_permuted_cell n X perm X_p).
Qed.

End NormalForms.

(** ** The score function: loss shapes *)

Section Losses.

Lemma weighted_sum_ext f1 f2 ps :
  (forall d, f1 d = f2 d) -> weighted_sum f1 ps = weighted_sum f2 ps.
Proof.
  intros H. unfold weighted_sum. f_equal.
  apply list_fmap_ext. intros _ p _. simpl. by rewrite H.
Qed.

Lemma weighted_sum_le f1 f2 ps :
  Forall (fun p => (0 <= p.1)%Q) ps -> (forall d, f1 d <= f2 d) ->
  (weighted_sum f1 ps <= weighted_sum f2 ps)%Q.
Proof.
  intros Hps Hf. induction Hps as [|[w d] ps Hw _ IH]; [apply Qle_refl|].
  rewrite !weighted_sum_cons. apply Qplus_le_compat; [|exact IH].
  rewrite !(Qmult_comm w). apply Qmult_le_compat_r; [|exact Hw].
  rewrite <- Zle_Qle. apply Hf.
Qed.

Lemma cell_nonneg X a b :
  Forall (Forall (fun w => (0 <= w)%Q)) X -> (0 <= cell X a b)%Q.
Proof.
  intros HX. unfold cell.
  destruct (X !! a) as [row|] eqn:Hrow; simpl; [|apply Qle_refl].
  destruct (row !! b) as [w|] eqn:Hw; simpl; [|apply Qle_refl].
  rewrite Forall_forall in HX.
  specialize (HX row (list_elem_of_lookup_2 _ _ _ Hrow)).
  rewrite Forall_forall in HX. apply HX. by eapply list_elem_of_lookup_2.
Qed.

Lemma pairs_nonneg X perm :
  nonneg X -> Forall (fun p => (0 <= p.1)%Q) (pairs X perm).
Proof.
  destruct X as [X|X]; simpl; intros HX.
  - apply Forall_fmap. eapply Forall_impl; [exact HX|]. done.
  - apply Forall_forall. intros p Hp.
    apply list_elem_of_bind in Hp as (a & Hp & _).
    apply list_elem_of_fmap in Hp as (b & -> & _). simpl.
    by apply cell_nonneg.
Qed.

Lemma huber_term_spec dh c n d : loss_term "Huber" dh c n d = huber_spec dh c n d.
Proof.
  unfold loss_term, huber_spec, in_band, huber_quadratic, huber_linear. simpl.
  destruct c; repeat case_bool_decide; simpl; try done; lia.
Qed.

Lemma r2s_below_square dh c n d : 0 < dh ->
  loss_term "R2S" dh c n d <= loss_term "2SUM" dh c n d.
Proof.
  intros Hdh. unfold loss_term, in_band. simpl.
  destruct c; repeat case_bool_decide; simpl; try lia; nia.
Qed.

Lemma huber_in_band dh c n d : d <= dh ->
  loss_term "Huber" dh c n d = loss_term "2SUM" dh c n d.
Proof.
  intros Hd. unfold loss_term, in_band. simpl.
  by rewrite bool_decide_eq_true_2.
Qed.

End Losses.






(** C9 fails on the code: for the same matrix and the cyclic shift as [perm],
    the sparse branch measures [|perm[i] - perm[j]|] and returns 2, the dense
    branch scores [X[perm, :][:, perm]] and returns 4. *)
Theorem dense_sparse_disagree :
  exists s1 s2,
    compute_score (Sparse link_coo) "1SUM" 1 (Some rotation) false = Some s1
    /\ compute_score (Dense (toarray link_coo)) "1SUM" 1 (Some rotation) false
       = Some s2
    /\ (s1 == 2)%Q /\ (s2 == 4)%Q /\ ~ (s1 == s2)%Q.
Proof.
  eexists. eexists. split; [reflexivity|]. split; [reflexivity|].
  repeat split; vm_compute; done.
Qed.





(** ** The loop *)

Section LoopLemmas.

Context {S : Type} (body : S -> option (flow S)).

Lemma loop_break k st st' :
  body st = Some (Break st') -> loop body (Datatypes.S k) st = Some st'.
Proof. intros H. simpl. by rewrite H. Qed.

(** What every iteration preserves holds when the loop ends. *)
Lemma loop_invariant (I : S -> Prop) :
  (forall st r, I st -> body st = Some r -> I (flow_state r)) ->
  forall k st st', I st -> loop body k st = Some st' -> I st'.
Proof.
  intros Hstep. induction k as [|k IH]; intros st st' Hst Hl; simpl in Hl.
  - by injection Hl as <-.
  - destruct (body st) as [r|] eqn:Hb; [|done]. simpl in Hl.
    specialize (Hstep st r Hst Hb).
    destruct r as [s|s]; simpl in Hstep.
    + by injection Hl as <-.
    + exact (IH s st' Hstep Hl).
Qed.

End LoopLemmas.

Section BodyLemmas.

Variable spectral_embedding : matrix -> Z -> option (list (list Q)).
Variable np_sqrt : Z -> Q.
Variable cfg : config.

Ltac step H :=
  cbn -[compute_score update_sparse update_dense argsort getitem column] in H.

(** The two ways a sparse iteration ends. *)
Lemma sparse_body_inv X st r :
  sparse_body spectral_embedding np_sqrt cfg X st = Some r ->
  let embed := EvEmbed (sparse_input X st) (default_dim cfg) in
  (candidate spectral_embedding cfg (sparse_input X st) = Some (best_perm st)
   /\ r = Break (LoopState (best_perm st) (best_score st) (eta st) (eta_old st)
                   (trace st ++ [embed])))
  \/ (exists best new_perm embedding eta_vec,
        update_sparse np_sqrt cfg (Z.of_nat (coo_shape X).1) X embedding
        = Some eta_vec
        /\ r = Next (LoopState best (best_score st) eta_vec (eta_old st)
                       ((trace st ++ [embed]) ++ [EvScore (Some new_perm)]
                          ++ [EvWeights eta_vec]))).
Proof.
  unfold sparse_body, candidate, sparse_input. intros H.
  destruct (spectral_embedding _ _) as [embedding|]; [|done]. step H.
  destruct (column embedding 0) as [col0|] eqn:Hc; [|done]. step H.
  case_bool_decide as Hm.
  - left. split; [|by injection H as <-].
    cbn -[argsort column]. rewrite Hc. cbn -[argsort]. by rewrite Hm.
  - right.
    destruct (getitem _ 0) as [first|]; [|done]. step H.
    destruct (getitem _ (-1)) as [last|]; [|done]. step H.
    destruct (compute_score _ _ _ _ _) as [new_score|]; [|done]. step H.
    destruct (update_sparse _ _ _ _ _) as [eta_vec|] eqn:Hu; [|done].
    step H. injection H as <-.
    do 4 eexists. split; [exact Hu|]. by rewrite <- !app_assoc.
Qed.

(** A dense iteration always runs to its end. *)
Lemma dense_body_inv X st r :
  dense_body spectral_embedding np_sqrt cfg X st = Some r ->
  exists best new_perm embedding eta_mat,
    update_dense np_sqrt cfg (dense_shape X).1 embedding = Some eta_mat
    /\ r = Next (LoopState best (best_score st) eta_mat (eta_old st)
                   ((trace st ++ [EvEmbed (dense_input X st) (default_dim cfg)])
                      ++ [EvScore (Some new_perm)]
                      ++ [EvWeights (concat eta_mat)])).
Proof.
  unfold dense_body, dense_input. intros H.
  destruct (spectral_embedding _ _) as [embedding|]; [|done]. step H.
  destruct (column embedding 0) as [col0|]; [|done]. step H.
  destruct (compute_score _ _ _ _ _) as [new_score|]; [|done]. step H.
  destruct (update_dense _ _ _ _) as [eta_mat|] eqn:Hu; [|done].
  step H. injection H as <-.
  do 4 eexists. split; [exact Hu|]. by rewrite <- !app_assoc.
Qed.

End BodyLemmas.

(** ** The solver: short inputs, stopping, the returned score, momentum *)

(** C6.  A square input with fewer than three items returns the identity
    permutation at once, with the score [-1] when a score is asked for; the
    trace is empty: no embedding, no scoring, no iteration. *)
Theorem small_input_short_circuit spectral_embedding np_sqrt cfg X :
  (shape X).1 = (shape X).2 -> ((shape X).1 < 3)%nat ->
  spectral_eta_trick3 spectral_embedding np_sqrt cfg X
  = Some ((arange (shape X).1, if return_score cfg then Some (-1)%Q else None),
          []).
Proof.
  intros Hsq Hn. unfold spectral_eta_trick3.
  destruct (shape X) as [n n2]. simpl in *.
  by rewrite !bool_decide_eq_true_2.
Qed.

Lemma small_input_short_circuit_witness :
  spectral_eta_trick3 (line_embedding [0; 1]%Q) sqrt_milli
    (Config 50 1 "Huber" true false None 1 true) (Dense pair_dense)
  = Some (([0; 1], Some (-1)%Q), []).
Proof.
  apply (small_input_short_circuit (line_embedding [0; 1]%Q) sqrt_milli
           (Config 50 1 "Huber" true false None 1 true) (Dense pair_dense)).
  - reflexivity.
  - simpl. lia.
Defined.

(** C10, as the code has it.  The sparse loop stops on a match: the state
    comes back untouched, the trace longer by the one embedding call, no
    score, no weight update, no further iteration.  The dense loop has no
    such test: each of its iterations that returns went through the
    embedding, the scoring and the weight update, and goes on to the next. *)
Theorem match_stops_sparse_loop spectral_embedding np_sqrt cfg :
  (forall X, stops_on_match spectral_embedding cfg (sparse_input X)
               (sparse_body spectral_embedding np_sqrt cfg X))
  /\ (forall X st r,
        dense_body spectral_embedding np_sqrt cfg X st = Some r ->
        exists st' new_perm,
          r = Next st'
          /\ trace st' = trace st
               ++ [EvEmbed (dense_input X st) (default_dim cfg);
                   EvScore (Some new_perm); EvWeights (concat (eta st'))]).
Proof.
  split.
  - intros X st k Hc. apply loop_break.
    unfold candidate, sparse_input in Hc. unfold sparse_body.
    destruct (spectral_embedding _ _) as [embedding|]; [|done].
    cbn -[argsort column] in *.
    destruct (column embedding 0) as [col0|]; [|done].
    cbn -[argsort] in *. injection Hc as Hc.
    by rewrite bool_decide_eq_true_2.
  - intros X st r H.
    destruct (dense_body_inv _ _ _ _ _ _ H)
      as (best & new_perm & embedding & eta_mat & _ & ->).
    eexists. exists new_perm. split; [done|]. simpl.
    by rewrite <- !app_assoc.
Qed.

Lemma match_stops_sparse_loop_witness :
  let emb := line_embedding [0; 1; 2]%Q in
  let cfg := Config 5 1 "1SUM" false false None 1 true in
  loop (sparse_body emb sqrt_milli cfg path_coo) 5 (sparse_start path_coo 6)
  = Some (LoopState [0; 1; 2] 6%Q [1; 1; 1; 1]%Q None
            [EvScore None;
             EvEmbed (sparse_input path_coo (sparse_start path_coo 6)) 8]).
Proof.
  apply (proj1 (match_stops_sparse_loop (line_embedding [0; 1; 2]%Q) sqrt_milli
                  (Config 5 1 "1SUM" false false None 1 true))
               path_coo (sparse_start path_coo 6) 4%nat).
  reflexivity.
Defined.

(** C10 as stated fails for dense inputs: with the embedding that keeps the
    three items in their order the first candidate is the identity, the best
    permutation at that point, and the dense loop does not stop there. *)
Lemma dense_loop_counterexample :
  let emb := line_embedding [0; 1; 2]%Q in
  let cfg := Config 2 1 "1SUM" false false None 1 true in
  candidate emb cfg (dense_input path_dense (dense_start path_dense 6))
    = Some (best_perm (dense_start path_dense 6))
  /\ ~ stops_on_match emb cfg (dense_input path_dense)
         (dense_body emb sqrt_milli cfg path_dense).
Proof.
  split; [reflexivity|].
  intros H. specialize (H (dense_start path_dense 6) 1%nat eq_refl).
  vm_compute in H. discriminate H.
Qed.

(** X16.  The score kept in the loop state is the one computed before the
    loop: on three items or more, a call that returns a score returns the
    score of the identity, whatever permutation it returns. *)
Lemma best_score_never_replaced spectral_embedding np_sqrt cfg X perm sc tr :
  (3 <= (shape X).1)%nat ->
  spectral_eta_trick3 spectral_embedding np_sqrt cfg X = Some ((perm, Some sc), tr) ->
  compute_score X (score_function cfg) (dh cfg) None false = Some sc.
Proof.
  intros Hn. unfold spectral_eta_trick3, result.
  destruct (shape X) as [n n2]. simpl in Hn.
  case_bool_decide; [|done]. rewrite bool_decide_eq_false_2 by lia.
  destruct (compute_score X _ _ None false) as [s0|]; [|done].
  cbn -[loop]. destruct X as [Xs|Xd].
  - destruct (loop _ _ _) as [st'|] eqn:Hl; [|done].
    apply (loop_invariant _ (fun st => best_score st = s0)) in Hl; [|..|done].
    + cbn. destruct (return_score cfg); [|done]. intros [= _ <- _]. by rewrite Hl.
    + intros st r Hst Hb.
      destruct (sparse_body_inv _ _ _ _ _ _ Hb)
        as [[_ ->]|(? & ? & ? & ? & _ & ->)]; done.
  - destruct (loop _ _ _) as [st'|] eqn:Hl; [|done].
    apply (loop_invariant _ (fun st => best_score st = s0)) in Hl; [|..|done].
    + cbn. destruct (return_score cfg); [|done]. intros [= _ <- _]. by rewrite Hl.
    + intros st r Hst Hb.
      destruct (dense_body_inv _ _ _ _ _ _ Hb) as (? & ? & ? & ? & _ & ->). done.
Qed.

(** C1 fails on the code: the loop replaces the best permutation and leaves
    the best score as it was set before the loop.  On the path 0 - 2 - 1 the
    candidate 0, 2, 1 scores 4 against the identity's 6 and becomes the
    returned permutation; the returned score is still 6. *)
Theorem returned_score_is_stale :
  let emb := line_embedding [-1; 1; 0]%Q in
  let cfg := Config 5 1 "1SUM" true false None 1 true in
  exists perm s tr s',
    spectral_eta_trick3 emb sqrt_milli cfg (Dense path_dense)
      = Some ((perm, Some s), tr)
    /\ perm = [0; 2; 1] /\ (s == 6)%Q
    /\ compute_score (Dense path_dense) "1SUM" 1 (Some perm) false = Some s'
    /\ (s' == 4)%Q /\ ~ (s == s')%Q.
Proof.
  do 4 eexists. split; [vm_compute; reflexivity|].
  split; [reflexivity|]. split; [reflexivity|].
  split; [vm_compute; reflexivity|]. split; [reflexivity|].
  vm_compute. discriminate.
Qed.

(** No iteration of the sparse loop reads [add_momentum]. *)
Lemma sparse_body_ignores_momentum spectral_embedding np_sqrt cfg X st :
  sparse_body spectral_embedding np_sqrt cfg X st
  = sparse_body spectral_embedding np_sqrt (without_momentum cfg) X st.
Proof. reflexivity. Qed.

(** The older [spectral_eta_trick] does blend: with a truthy [add_momentum]
    its sparse update is the blend of the fresh weights with the weights the
    iteration started from. *)
Lemma eta_trick_update_blends cfg n X new_perm previous g :
  add_momentum cfg = Some g -> ~ (g == 0)%Q ->
  eta_trick_update cfg n X new_perm previous
  = (raw_next ← eta_trick_update (without_momentum cfg) n X new_perm previous;
     Some (momentum_blend g raw_next previous)).
Proof.
  intros Hg Hnz. unfold eta_trick_update. rewrite Hg. simpl.
  assert (Qeq_bool g 0 = false) as ->.
  { destruct (Qeq_bool g 0) eqn:E; [|done]. by apply Qeq_bool_iff in E. }
  simpl. destruct (take_idx _ (coo_row X)); [|done]. simpl.
  destruct (take_idx _ (coo_col X)); done.
Qed.

(** C5 fails on [spectral_eta_trick3]: with [add_momentum = 1/2] on the path
    0 - 1 - 2, the weights after the first iteration are the fresh ones,
    2, 2, 1, 1, not their blend 3/2, 3/2, 1, 1 with the all-ones weights the
    iteration started from. *)
Theorem momentum_never_blended :
  let emb := line_embedding [-1; 1; 0]%Q in
  let cfg := Config 1 1 "1SUM" false false (Some (1 # 2)) 1 true in
  exists r tr raw_next,
    spectral_eta_trick3 emb sqrt_milli cfg (Sparse chain_coo) = Some (r, tr)
    /\ last tr = Some (EvWeights raw_next)
    /\ Forall2 Qeq raw_next [2; 2; 1; 1]%Q
    /\ Forall2 Qeq (momentum_blend (1 # 2) raw_next (replicate 4 1%Q))
                   [3 # 2; 3 # 2; 1; 1]%Q
    /\ ~ Forall2 Qeq raw_next (momentum_blend (1 # 2) raw_next (replicate 4 1%Q)).
Proof.
  do 3 eexists. split; [vm_compute; reflexivity|].
  split; [reflexivity|].
  split; [repeat first [apply List.Forall2_nil
                       | apply List.Forall2_cons; [vm_compute; reflexivity|]]|].
  split; [repeat first [apply List.Forall2_nil
                       | apply List.Forall2_cons; [vm_compute; reflexivity|]]|].
  intros H. apply Forall2_cons_1 in H as [H _]. vm_compute in H. discriminate H.
Qed.

(** ** The weight update: the clamp at [dh] *)

Section Clamp.

Variable np_sqrt : Z -> Q.
Variable cfg : config.
Hypothesis sqrt_one : (np_sqrt 1%Z == 1)%Q.
Hypothesis sqrt_pos : forall k, 1 <= k -> (0 < np_sqrt k)%Q.
Hypothesis dh_pos : 1 <= dh cfg.

Let floor (w : Q) : Prop := (inject_Z (dh cfg) <= w)%Q.
Let nonnegative (w : Q) : Prop := (0 <= w)%Q.

Lemma floor_nonnegative w : floor w -> nonnegative w.
Proof.
  unfold floor, nonnegative. intros H. eapply Qle_trans; [|exact H].
  change 0%Q with (inject_Z 0). rewrite <- Zle_Qle. lia.
Qed.

Lemma scaled_floor dim m :
  dh cfg <= m ->
  (inject_Z (dh cfg) * np_sqrt (1 + Z.of_nat dim) <= inject_Z m * 1 ->
   floor (inject_Z m * 1 / np_sqrt (1 + Z.of_nat dim)))%Q.
Proof.
  intros Hm H. apply Qle_shift_div_l; [apply sqrt_pos; lia|exact H].
Qed.

(** In dimension 0 every clamped and scaled distance is at least [dh]. *)
Lemma clamp_scale_first n l : Forall floor (clamp_scale np_sqrt cfg n 0 l).
Proof.
  unfold clamp_scale. set (l' := if circular cfg then _ else _).
  clearbody l'. destruct (avg_scaling cfg).
  - rewrite <- list_fmap_compose. apply Forall_fmap, Forall_true. intros x. simpl.
    apply scaled_floor; [lia|]. change (1 + Z.of_nat 0) with 1.
    rewrite sqrt_one, !Qmult_1_r, <- Zle_Qle. lia.
  - rewrite <- list_fmap_compose. apply Forall_fmap, Forall_true. intros x. simpl.
    unfold floor. rewrite <- Zle_Qle. lia.
Qed.

(** In every dimension they are nonnegative. *)
Lemma clamp_scale_nonnegative n dim l :
  Forall nonnegative (clamp_scale np_sqrt cfg n dim l).
Proof.
  unfold clamp_scale. set (l' := if circular cfg then _ else _).
  clearbody l'. destruct (avg_scaling cfg).
  - rewrite <- list_fmap_compose. apply Forall_fmap, Forall_true. intros x. simpl.
    apply Qle_shift_div_l; [apply sqrt_pos; lia|].
    rewrite Qmult_0_l, Qmult_1_r. change 0%Q with (inject_Z 0).
    rewrite <- Zle_Qle. lia.
  - rewrite <- list_fmap_compose. apply Forall_fmap, Forall_true. intros x. simpl.
    apply floor_nonnegative. unfold floor. rewrite <- Zle_Qle. lia.
Qed.

Lemma np_add_floor_l a b e :
  np_add a b = Some e -> Forall floor a -> Forall nonnegative b -> Forall floor e.
Proof.
  unfold np_add. case_bool_decide; [|done]. intros [= <-] Ha. revert b H.
  induction Ha as [|x a Hx _ IH]; intros [|y b] Hlen Hb; simpl; try constructor.
  - unfold floor in *. apply Forall_cons_1 in Hb as [Hy _].
    unfold nonnegative in Hy. lra.
  - apply IH; [simpl in Hlen; lia|]. by apply Forall_cons_1 in Hb as [_ Hb].
Qed.

Lemma np_add_floor_r a b e :
  np_add a b = Some e -> Forall nonnegative a -> Forall floor b -> Forall floor e.
Proof.
  unfold np_add. case_bool_decide; [|done]. intros [= <-] Ha. revert b H.
  induction Ha as [|x a Hx _ IH]; intros [|y b] Hlen Hb; simpl; try constructor.
  - unfold floor, nonnegative in *. apply Forall_cons_1 in Hb as [Hy _]. lra.
  - apply IH; [simpl in Hlen; lia|]. by apply Forall_cons_1 in Hb as [_ Hb].
Qed.

(** Adding nonnegative rounds keeps the floor. *)
Lemma accumulate_floor (eta_add : nat -> option (list Q)) dims e0 e :
  (forall dim a, eta_add dim = Some a -> Forall nonnegative a) ->
  accumulate eta_add dims e0 = Some e -> Forall floor e0 -> Forall floor e.
Proof.
  intros Hadd. revert e0. induction dims as [|dim dims IH]; intros e0 H He0.
  - by injection H as <-.
  - simpl in H. destruct (eta_add dim) as [a|] eqn:Ha; [|done]. simpl in H.
    destruct (np_add e0 a) as [e1|] eqn:He1; [|done]. simpl in H.
    apply (IH e1 H). eapply np_add_floor_l; eauto.
Qed.

(** From a nonnegative start, the round of dimension 0 sets the floor. *)
Lemma accumulate_from_zero (eta_add : nat -> option (list Q)) dims e0 e :
  (forall a, eta_add 0%nat = Some a -> Forall floor a) ->
  (forall dim a, eta_add dim = Some a -> Forall nonnegative a) ->
  accumulate eta_add (0%nat :: dims) e0 = Some e ->
  Forall nonnegative e0 -> Forall floor e.
Proof.
  intros H0 Hadd H He0. simpl in H.
  destruct (eta_add 0%nat) as [a|] eqn:Ha; [|done]. simpl in H.
  destruct (np_add e0 a) as [e1|] eqn:He1; [|done]. simpl in H.
  eapply accumulate_floor; [exact Hadd|exact H|].
  eapply np_add_floor_r; eauto.
Qed.

Lemma dims_first n :
  1 <= avg_dim cfg -> 3 <= n -> exists m, dims cfg n = 0%nat :: seq 1 m.
Proof.
  intros Ha Hn. unfold dims.
  destruct (Z.to_nat (Z.min (avg_dim cfg) (n - 1))) as [|m] eqn:E; [lia|].
  by exists m.
Qed.

Lemma update_sparse_floor n X embedding eta_vec :
  1 <= avg_dim cfg -> 3 <= n ->
  update_sparse np_sqrt cfg n X embedding = Some eta_vec -> Forall floor eta_vec.
Proof.
  intros Ha Hn. unfold update_sparse.
  destruct (dims_first n Ha Hn) as [m ->]. intros H.
  eapply accumulate_from_zero; [| |exact H|].
  - intros a. unfold eta_add_sparse.
    destruct (dim_ranks _ _); [|done]. simpl.
    destruct (take_idx _ (coo_row X)); [|done]. simpl.
    destruct (take_idx _ (coo_col X)); [|done]. simpl.
    intros [= <-]. apply clamp_scale_first.
  - intros dim a. unfold eta_add_sparse.
    destruct (dim_ranks _ _); [|done]. simpl.
    destruct (take_idx _ (coo_row X)); [|done]. simpl.
    destruct (take_idx _ (coo_col X)); [|done]. simpl.
    intros [= <-]. apply clamp_scale_nonnegative.
  - apply Forall_replicate. unfold nonnegative. lra.
Qed.

Lemma identity_flat_nonnegative n : Forall nonnegative (identity_flat n).
Proof.
  unfold identity_flat. generalize (np_repeat (seq 0 n) n) (np_tile (seq 0 n) n).
  induction l as [|i l IH]; intros [|j l']; simpl; try constructor.
  - unfold nonnegative. case_bool_decide; lra.
  - apply IH.
Qed.

Lemma chunks_Forall {A} (P : A -> Prop) rows cols l :
  Forall P l -> Forall P (concat (chunks rows cols l)).
Proof.
  revert l. induction rows as [|r IH]; intros l Hl; simpl; [constructor|].
  apply Forall_app. split; [by apply Forall_take|].
  apply IH. by apply Forall_drop.
Qed.

Lemma update_dense_floor n embedding eta_mat :
  1 <= avg_dim cfg -> (3 <= n)%nat ->
  update_dense np_sqrt cfg n embedding = Some eta_mat ->
  Forall floor (concat eta_mat).
Proof.
  intros Ha Hn. unfold update_dense.
  destruct (dims_first (Z.of_nat n) Ha) as [m ->]; [lia|]. intros H.
  destruct (accumulate _ _ _) as [flat|] eqn:Hacc; [|done]. simpl in H.
  unfold reshape in H. case_bool_decide; [|done]. injection H as <-.
  apply chunks_Forall.
  eapply accumulate_from_zero; [| |exact Hacc|].
  - intros a. unfold eta_add_dense.
    destruct (dim_ranks _ _); [|done]. simpl.
    intros [= <-]. apply clamp_scale_first.
  - intros dim a. unfold eta_add_dense.
    destruct (dim_ranks _ _); [|done]. simpl.
    intros [= <-]. apply clamp_scale_nonnegative.
  - apply identity_flat_nonnegative.
Qed.

End Clamp.

(** C4.  In a call of [spectral_eta_trick3] with [avg_dim >= 1] and a
    positive integer [dh], every weight structure the update assigns, in any
    iteration, on the sparse and on the dense path, with or without scaling
    and circular wrap, has all its entries at least [dh], hence none equal to
    zero.  Of [np.sqrt] this uses [sqrt(1) = 1] and positivity. *)
Theorem weights_at_least_dh spectral_embedding (np_sqrt : Z -> Q) cfg X r tr eta :
  (np_sqrt 1%Z == 1)%Q -> (forall k, 1 <= k -> (0 < np_sqrt k)%Q) ->
  1 <= avg_dim cfg -> 1 <= dh cfg ->
  spectral_eta_trick3 spectral_embedding np_sqrt cfg X = Some (r, tr) ->
  EvWeights eta ∈ tr ->
  Forall (fun w => (inject_Z (dh cfg) <= w)%Q /\ ~ (w == 0)%Q) eta.
Proof.
  intros Hs1 Hsp Ha Hd Hrun Hin.
  assert (Hfloor : Forall (fun w => (inject_Z (dh cfg) <= w)%Q) eta).
  2:{ eapply Forall_impl; [exact Hfloor|]. intros w Hw. split; [done|].
      assert (1 <= inject_Z (dh cfg))%Q
        by (change 1%Q with (inject_Z 1); rewrite <- Zle_Qle; lia).
      simpl in Hw. intros Hz. lra. }
  pose (I := fun (t : list event) => forall e, EvWeights e ∈ t ->
               Forall (fun w => (inject_Z (dh cfg) <= w)%Q) e).
  assert (Hext : forall t X_w k p e,
    I t -> Forall (fun w => (inject_Z (dh cfg) <= w)%Q) e ->
    I ((t ++ [EvEmbed X_w k]) ++ [EvScore p] ++ [EvWeights e])).
  { intros t X_w k p e Ht He e' He'.
    rewrite !elem_of_app, !list_elem_of_singleton in He'.
    destruct He' as [[He'|He']|[He'|He']]; try done; [by apply Ht|].
    by injection He' as ->. }
  assert (Hemb : forall t X_w k, I t -> I (t ++ [EvEmbed X_w k])).
  { intros t X_w k Ht e' He'.
    rewrite elem_of_app, list_elem_of_singleton in He'.
    destruct He' as [He'|He']; [by apply Ht|done]. }
  revert Hrun. unfold spectral_eta_trick3, result.
  destruct (shape X) as [n n2] eqn:Hshape.
  case_bool_decide; [|done]. case_bool_decide as Hn.
  { intros [= _ <-]. inversion Hin. }
  destruct (compute_score X _ _ None false) as [s0|]; [|done].
  cbn -[loop]. destruct X as [Xs|Xd].
  - destruct (loop _ _ _) as [st'|] eqn:Hl; [|done].
    cbn. intros [= _ <-]. revert eta Hin. fold (I (trace st')).
    apply (loop_invariant _ (fun st => I (trace st)) ) in Hl; [done| |].
    + intros st r' Hst Hb.
      destruct (sparse_body_inv _ _ _ _ _ _ Hb)
        as [[_ ->]|(? & ? & ? & e & Hu & ->)]; simpl.
      * by apply Hemb.
      * apply Hext; [done|].
        eapply (update_sparse_floor np_sqrt cfg); [done..| |exact Hu].
        simpl in Hshape. rewrite Hshape. simpl. lia.
    + intros e He. simpl in He. apply list_elem_of_singleton in He. done.
  - destruct (loop _ _ _) as [st'|] eqn:Hl; [|done].
    cbn. intros [= _ <-]. revert eta Hin. fold (I (trace st')).
    apply (loop_invariant _ (fun st => I (trace st)) ) in Hl; [done| |].
    + intros st r' Hst Hb.
      destruct (dense_body_inv _ _ _ _ _ _ Hb) as (? & ? & ? & e & Hu & ->).
      simpl. apply Hext; [done|].
      eapply (update_dense_floor np_sqrt cfg); [done..| |exact Hu].
      simpl in Hshape. rewrite Hshape. simpl. lia.
    + intros e He. simpl in He. apply list_elem_of_singleton in He. done.
Qed.

Lemma sqrt_milli_pos k : 1 <= k -> (0 < sqrt_milli k)%Q.
Proof.
  intros Hk. unfold sqrt_milli, Qlt. simpl.
  rewrite Z.mul_1_r. apply Z.sqrt_pos. lia.
Qed.

Lemma weights_at_least_dh_witness :
  exists r tr eta,
    spectral_eta_trick3 (line_embedding [-1; 1; 0]%Q) sqrt_milli
      (Config 2 2 "Huber" false true None 3 true) (Dense path_dense)
      = Some (r, tr)
    /\ last tr = Some (EvWeights eta)
    /\ Forall (fun w => (inject_Z 2 <= w)%Q /\ ~ (w == 0)%Q) eta.
Proof.
  do 3 eexists. split; [vm_compute; reflexivity|]. split; [reflexivity|].
  eapply (weights_at_least_dh (line_embedding [-1; 1; 0]%Q) sqrt_milli
            (Config 2 2 "Huber" false true None 3 true) (Dense path_dense)).
  - vm_compute. reflexivity.
  - apply sqrt_milli_pos.
  - simpl. lia.
  - simpl. lia.
  - vm_compute. reflexivity.
  - apply list_elem_of_In. simpl. tauto.
Defined.

(** * Further properties of the score functions *)

Section ScoreFacts.

Lemma loss_array_unknown (sf : string) dh c n d :
  sf <> "2SUM"%string -> sf <> "Huber"%string -> sf <> "R2S"%string -> loss_array sf dh c n d = d.
Proof.
  intros H2 HH HR. unfold loss_array.
  apply String.eqb_neq in H2, HH, HR. by rewrite H2, HH, HR.
Qed.

Lemma compute_score_loss_ext X sf sf' dh dh' perm c c' :
  (forall n d, loss_array sf dh c n d = loss_array sf' dh' c' n d) ->
  compute_score X sf dh perm c = compute_score X sf' dh' perm c'.
Proof.
  intros H. destruct X as [X|X]; unfold compute_score.
  - destruct (sparse_d2diag X perm); [|done]. cbn -[loss_array]. by rewrite H.
  - destruct (dense_permuted X perm); [|done]. cbn -[loss_array]. by rewrite H.
Qed.

End ScoreFacts.

(** X1.  A [score_function] that is none of ['2SUM'], ['Huber'], ['R2S'] is
    not rejected: the call returns what ['1SUM'] returns. *)
Theorem unknown_loss_scores_as_one_sum X (sf : string) dh perm c :
  sf <> "2SUM"%string -> sf <> "Huber"%string -> sf <> "R2S"%string ->
  compute_score X sf dh perm c = compute_score X "1SUM" dh perm c.
Proof.
  intros H2 HH HR. apply compute_score_loss_ext. intros n d.
  by rewrite !loss_array_unknown.
Qed.

Lemma unknown_loss_scores_as_one_sum_witness :
  compute_score (Sparse link_coo) "3SUM" 1 (Some rotation) true
  = compute_score (Sparse link_coo) "1SUM" 1 (Some rotation) true.
Proof.
  apply (unknown_loss_scores_as_one_sum (Sparse link_coo) "3SUM" 1
           (Some rotation) true); discriminate.
Defined.

(** X2.  [p_sum_score] with [p = 1] and [p = 2] returns what [compute_score]
    returns for ['1SUM'] and ['2SUM'], whatever [dh] and [circular], and fails
    where it fails. *)
Theorem p_sum_score_is_compute_score X perm dh c :
  p_sum_score X 1 perm = compute_score X "1SUM" dh perm c
  /\ p_sum_score X 2 perm = compute_score X "2SUM" dh perm c.
Proof. split; by destruct X. Qed.

Section IdentityPerm.

Lemma getitem_arange n k : (k < n)%nat -> getitem (arange n) (Z.of_nat k) = Some (Z.of_nat k).
Proof.
  intros H. rewrite getitem_range by (rewrite length_arange; lia).
  rewrite Nat2Z.id. by apply lookup_arange.
Qed.

Lemma take_idx_arange {A} (a : list A) : take_idx a (arange (length a)) = Some a.
Proof.
  apply mapM_Some, Forall2_same_length_lookup_2; [by rewrite length_arange|].
  intros i k x Hk Hx.
  pose proof (lookup_lt_Some _ _ _ Hx) as Hi.
  rewrite lookup_arange in Hk by done. injection Hk as <-.
  rewrite getitem_range by lia. by rewrite Nat2Z.id.
Qed.

Lemma take_idx_arange_in n idx :
  Forall (fun i => 0 <= i < Z.of_nat n) idx -> take_idx (arange n) idx = Some idx.
Proof.
  intros H. apply mapM_Some.
  induction H as [|i idx Hi _ IH]; constructor; [|done].
  replace i with (Z.of_nat (Z.to_nat i)) by lia. apply getitem_arange. lia.
Qed.

End IdentityPerm.



Section LossOrder.

Lemma pairs_distance_nonneg X perm : Forall (fun p => 0 <= p.2) (pairs X perm).
Proof.
  destruct X as [X|X]; simpl.
  - apply Forall_fmap, Forall_true. intros e. simpl. lia.
  - apply Forall_forall. intros p Hp.
    apply list_elem_of_bind in Hp as (a & Hp & _).
    apply list_elem_of_fmap in Hp as (b & -> & _). simpl. lia.
Qed.

Lemma weighted_sum_le_on (P : Z -> Prop) f1 f2 ps :
  Forall (fun p => (0 <= p.1)%Q) ps -> Forall (fun p => P p.2) ps ->
  (forall d, P d -> f1 d <= f2 d) ->
  (weighted_sum f1 ps <= weighted_sum f2 ps)%Q.
Proof.
  intros Hps HP Hf. induction Hps as [|[w d] ps Hw _ IH]; [apply Qle_refl|].
  apply Forall_cons_1 in HP as [Hd HP].
  rewrite !weighted_sum_cons. apply Qplus_le_compat; [|by apply IH].
  rewrite !(Qmult_comm w). apply Qmult_le_compat_r; [|exact Hw].
  rewrite <- Zle_Qle. by apply Hf.
Qed.

Lemma weighted_sum_zero ps : (weighted_sum (fun _ => 0%Z) ps == 0)%Q.
Proof.
  induction ps as [|[w d] ps IH]; [reflexivity|].
  rewrite weighted_sum_cons, IH. simpl. ring.
Qed.

Lemma r2s_below_huber dh c n d : 0 <= dh ->
  loss_term "R2S" dh c n d <= loss_term "Huber" dh c n d.
Proof.
  intros Hdh. unfold loss_term, in_band. simpl.
  destruct c; repeat case_bool_decide; simpl; try lia; nia.
Qed.

Lemma huber_below_square dh c n d :
  loss_term "Huber" dh c n d <= loss_term "2SUM" dh c n d.
Proof.
  unfold loss_term, in_band. simpl.
  pose proof (Z.square_nonneg (d - dh)).
  destruct (_ || _); rewrite ?Z.pow_2_r; nia.
Qed.

Lemma loss_term_nonneg sf dh c n d : 0 <= dh -> 0 <= d -> 0 <= loss_term sf dh c n d.
Proof.
  intros Hdh Hd. unfold loss_term, in_band.
  repeat destruct (String.eqb _ _); try nia;
    destruct c; repeat case_bool_decide; simpl; nia.
Qed.

End LossOrder.







Section ZeroAndOrder.

Lemma cell_zero X a b :
  Forall (Forall (fun w => (w == 0)%Q)) X -> (cell X a b == 0)%Q.
Proof.
  intros HX. unfold cell.
  destruct (X !! a) as [row|] eqn:Hrow; simpl; [|reflexivity].
  destruct (row !! b) as [w|] eqn:Hw; simpl; [|reflexivity].
  rewrite Forall_forall in HX.
  specialize (HX row (list_elem_of_lookup_2 _ _ _ Hrow)).
  rewrite Forall_forall in HX. apply HX. by eapply list_elem_of_lookup_2.
Qed.

Lemma pairs_zero X perm :
  all_zero X -> Forall (fun p => (p.1 == 0)%Q) (pairs X perm).
Proof.
  destruct X as [X|X]; simpl; intros HX.
  - apply Forall_fmap. eapply Forall_impl; [exact HX|]. done.
  - apply Forall_forall. intros p Hp.
    apply list_elem_of_bind in Hp as (a & Hp & _).
    apply list_elem_of_fmap in Hp as (b & -> & _). simpl.
    by apply cell_zero.
Qed.

Lemma weighted_sum_of_zeros f ps :
  Forall (fun p => (p.1 == 0)%Q) ps -> (weighted_sum f ps == 0)%Q.
Proof.
  induction 1 as [|[w d] ps Hw _ IH]; [reflexivity|].
  rewrite weighted_sum_cons, IH. simpl in Hw. rewrite Hw. ring.
Qed.

Lemma weighted_sum_perm f ps ps' :
  ps ≡ₚ ps' -> (weighted_sum f ps == weighted_sum f ps')%Q.
Proof.
  induction 1 as [|[w d] ps ps' _ IH|[w d] [w' d'] ps|ps1 ps2 ps3 _ IH1 _ IH2].
  - reflexivity.
  - by rewrite !weighted_sum_cons, IH.
  - rewrite !weighted_sum_cons. ring.
  - by rewrite IH1.
Qed.

Lemma getitem_fmap {A B} (g : A -> B) (a : list A) i :
  getitem (g <$> a) i = g <$> getitem a i.
Proof.
  unfold getitem. rewrite length_fmap.
  repeat case_bool_decide; try done; apply list_lookup_fmap.
Qed.

Lemma take_idx_fmap_values {A B} (g : A -> B) (a : list A) idx :
  take_idx (g <$> a) idx = (fun l : list A => g <$> l) <$> take_idx a idx.
Proof.
  unfold take_idx. induction idx as [|i idx IH]; [done|].
  cbn. rewrite getitem_fmap. destruct (getitem a i); [|done]. cbn.
  cbn in IH. rewrite IH. by destruct (mapM (getitem a) idx).
Qed.

Lemma sparse_d2diag_flip n X p :
  sparse_d2diag X (Some (flip_perm n p)) = sparse_d2diag X (Some p).
Proof.
  unfold sparse_d2diag, flip_perm. rewrite !take_idx_fmap_values.
  destruct (take_idx p (coo_row X)) as [pr|]; [|done].
  destruct (take_idx p (coo_col X)) as [pc|]; [|done].
  cbn. f_equal. revert pc.
  induction pr as [|a pr IH]; intros [|b pc]; cbn; try done.
  f_equal; [lia|apply IH].
Qed.

End ZeroAndOrder.



(** X8.  The orientation flip [new_perm *= -1; new_perm += n - 1] does not
    change what the sparse branch returns, score or failure: it keeps every
    difference [perm[i] - perm[j]] up to sign. *)
Theorem flip_keeps_sparse_score n X (sf : string) dh p c :
  compute_score (Sparse X) sf dh (Some (flip_perm n p)) c
  = compute_score (Sparse X) sf dh (Some p) c.
Proof. unfold compute_score. by rewrite sparse_d2diag_flip. Qed.



(** * Sorting indices *)

Section Argsort.

Context {A : Type} (leb : A -> A -> bool).

Lemma insert_key_perm p l : insert_key leb p l ≡ₚ p :: l.
Proof.
  induction l as [|q l IH]; simpl; [done|].
  destruct (leb p.2 q.2); [done|]. rewrite IH. apply Permutation_swap.
Qed.

Lemma sort_keys_perm l : foldr (insert_key leb) [] l ≡ₚ l.
Proof.
  induction l as [|p l IH]; simpl; [done|].
  by rewrite insert_key_perm, IH.
Qed.

(** [argsort] lists every index once. *)
Lemma argsort_perm xs : argsort leb xs ≡ₚ arange (length xs).
Proof.
  unfold argsort. rewrite sort_keys_perm.
  rewrite fst_zip; [done|]. by rewrite length_arange.
Qed.

Lemma argsort_length xs : length (argsort leb xs) = length xs.
Proof. by rewrite argsort_perm, length_arange. Qed.

End Argsort.

Section ArgsortInverse.

Let key_le (a b : Z * Z) : Prop := a.2 <= b.2.

Lemma insert_key_hd q p l :
  HdRel key_le q l -> key_le q p -> HdRel key_le q (insert_key Z.leb p l).
Proof.
  intros Hl Hp. destruct l as [|r l]; simpl; [by constructor|].
  destruct (Z.leb p.2 r.2); constructor; [done|]. by inversion Hl.
Qed.

Lemma insert_key_sorted p l :
  Sorted key_le l -> Sorted key_le (insert_key Z.leb p l).
Proof.
  induction 1 as [|q l Hs IH Hq]; simpl; [by repeat constructor|].
  destruct (Z.leb p.2 q.2) eqn:E.
  - constructor; [by constructor|]. constructor. unfold key_le. lia.
  - constructor; [done|]. apply insert_key_hd; [done|]. unfold key_le. lia.
Qed.

Lemma sort_keys_sorted l : Sorted key_le (foldr (insert_key Z.leb) [] l).
Proof.
  induction l as [|p l IH]; simpl; [constructor|]. by apply insert_key_sorted.
Qed.

Lemma arange_sorted_from j n : Sorted Z.le (Z.of_nat <$> seq j n).
Proof.
  revert j. induction n as [|n IH]; intros j; simpl; [constructor|].
  constructor; [apply IH|]. destruct n; simpl; constructor. lia.
Qed.

(** For a permutation [p] of [0 .. n-1], [argsort(p)] is its inverse:
    [p[argsort(p)[k]] = k]. *)
Lemma argsort_inverse n p k :
  p ≡ₚ arange n -> (k < n)%nat ->
  exists i, argsort Z.leb p !! k = Some (Z.of_nat i) /\ (i < n)%nat
            /\ p !! i = Some (Z.of_nat k).
Proof.
  intros Hp Hk. pose proof (perm_length _ _ Hp) as Hlen.
  unfold argsort. rewrite Hlen.
  set (s := foldr (insert_key Z.leb) [] (zip (arange n) p)).
  assert (Hs : s ≡ₚ zip (arange n) p) by apply sort_keys_perm.
  assert (Hkeys : s.*2 = arange n).
  { apply (Sorted_unique Z.le).
    - apply (Sorted_fmap snd key_le Z.le); [done|apply sort_keys_sorted].
    - apply arange_sorted_from.
    - rewrite Hs, snd_zip; [done|]. rewrite length_arange. lia. }
  assert (Hsl : length s = n).
  { rewrite Hs, length_zip, length_arange. lia. }
  destruct (lookup_lt_is_Some_2 s k) as [[a v] Hav]; [lia|].
  assert (v = Z.of_nat k) as ->.
  { assert (s.*2 !! k = Some v) as Hv by (by rewrite list_lookup_fmap, Hav).
    rewrite Hkeys, lookup_arange in Hv by done. congruence. }
  assert (Hin : (a, Z.of_nat k) ∈ zip (arange n) p).
  { rewrite <- Hs. by eapply list_elem_of_lookup_2. }
  apply list_elem_of_lookup_1 in Hin as [i Hi].
  apply lookup_zip_Some in Hi as [Ha Hpi].
  pose proof (lookup_lt_Some _ _ _ Ha) as Hi. rewrite length_arange in Hi.
  rewrite lookup_arange in Ha by done. injection Ha as <-.
  exists i. rewrite list_lookup_fmap, Hav. done.
Qed.

End ArgsortInverse.

(** * Dense against sparse *)

Section SumLemmas.

Context {A : Type}.

Lemma np_sum_cons x l : np_sum (x :: l) = (x + np_sum l)%Q.
Proof. reflexivity. Qed.

Lemma np_sum_ext (g h : A -> Q) l :
  (forall x, x ∈ l -> (g x == h x)%Q) -> (np_sum (g <$> l) == np_sum (h <$> l))%Q.
Proof.
  induction l as [|x l IH]; intros H; [reflexivity|].
  rewrite !fmap_cons, !np_sum_cons. rewrite (H x) by left.
  rewrite IH; [reflexivity|]. intros y Hy. apply H. by right.
Qed.

Lemma np_sum_plus (g h : A -> Q) l :
  (np_sum ((fun x => g x + h x) <$> l) == np_sum (g <$> l) + np_sum (h <$> l))%Q.
Proof.
  induction l as [|x l IH]; [reflexivity|].
  rewrite !fmap_cons, !np_sum_cons, IH. ring.
Qed.

Lemma np_sum_zeros (l : list A) : (np_sum ((fun _ => 0) <$> l) == 0)%Q.
Proof.
  induction l as [|x l IH]; [reflexivity|].
  rewrite fmap_cons, np_sum_cons, IH. ring.
Qed.

Lemma np_sum_delta `{EqDecision A} (g : A -> Q) l k :
  NoDup l -> k ∈ l ->
  (np_sum ((fun a => if decide (a = k) then g a else 0) <$> l) == g k)%Q.
Proof.
  induction 1 as [|x l Hx Hl IH]; intros Hk; [by inversion Hk|].
  rewrite fmap_cons, np_sum_cons. destruct (decide (x = k)) as [->|Hne].
  - rewrite (np_sum_ext _ (fun _ => 0%Q)).
    + rewrite np_sum_zeros. ring.
    + intros y Hy. destruct (decide (y = k)) as [->|]; [done|reflexivity].
  - rewrite IH; [ring|]. apply elem_of_cons in Hk as [->|Hk]; done.
Qed.

End SumLemmas.

Section DenseSparse.

Variable n : nat.
Variable X : coo_matrix.
Variable p : list Z.
Hypothesis X_square : square n (Sparse X).
Hypothesis p_valid : p ≡ₚ arange n.

Let q : list Z := argsort Z.leb p.
Let P (a : nat) : nat := Z.to_nat (perm_at (Some p) a).
Let Qn (i : nat) : nat := Z.to_nat (perm_at (Some q) i).
Let csum (es : list (nat * nat * Q)) (ij : nat * nat) : Q :=
  np_sum (snd <$> filter (fun e => e.1 = ij) es).

Lemma q_lookup i : (i < n)%nat ->
  q !! i = Some (Z.of_nat (Qn i)) /\ (Qn i < n)%nat
  /\ p !! Qn i = Some (Z.of_nat i).
Proof.
  intros Hi. destruct (argsort_inverse n p i p_valid Hi) as (j & Hq & Hj & Hp).
  unfold Qn, perm_at, q. rewrite Hq. simpl. by rewrite Nat2Z.id.
Qed.

Lemma P_inverse a i : (a < n)%nat -> (i < n)%nat -> P a = i <-> a = Qn i.
Proof.
  intros Ha Hi. destruct (q_lookup i Hi) as (_ & Hj & Hp).
  unfold P, perm_at. split.
  - intros HP.
    destruct (lookup_lt_is_Some_2 p a) as [v Hv];
      [by rewrite (perm_length _ _ p_valid)|].
    rewrite Hv in HP. simpl in HP.
    pose proof (perm_range n p v p_valid (list_elem_of_lookup_2 _ _ _ Hv)).
    assert (v = Z.of_nat i) as -> by lia.
    eapply NoDup_lookup; [|exact Hv|exact Hp].
    rewrite p_valid. unfold arange. apply (NoDup_fmap_2 _), NoDup_seq.
  - intros ->. rewrite Hp. simpl. lia.
Qed.

Lemma P_range a : (a < n)%nat -> (P a < n)%nat.
Proof.
  intros Ha. unfold P, perm_at.
  destruct (lookup_lt_is_Some_2 p a) as [v Hv];
    [by rewrite (perm_length _ _ p_valid)|].
  rewrite Hv. simpl.
  pose proof (perm_range n p v p_valid (list_elem_of_lookup_2 _ _ _ Hv)). lia.
Qed.

Lemma cell_toarray i j : (i < n)%nat -> (j < n)%nat ->
  cell (toarray X) i j = csum (coo_entries X) (i, j).
Proof.
  intros Hi Hj. destruct X_square as [Hs _]. unfold cell, toarray.
  rewrite Hs. simpl. rewrite list_lookup_fmap, lookup_seq_lt by done. simpl.
  by rewrite list_lookup_fmap, lookup_seq_lt by done.
Qed.

Lemma toarray_square : square n (Dense (toarray X)).
Proof.
  destruct X_square as [Hs _]. unfold toarray. rewrite Hs. simpl. split.
  - by rewrite length_fmap, length_seq.
  - apply Forall_fmap, Forall_true. intros i. simpl.
    by rewrite length_fmap, length_seq.
Qed.

(** One stored entry is seen in exactly one cell of the reordered grid. *)
Lemma single_entry (F : nat -> nat -> Q) i j w :
  (i < n)%nat -> (j < n)%nat ->
  (np_sum ((fun a => np_sum ((fun b =>
      if decide ((i, j) = (P a, P b)) then w * F a b else 0) <$> seq 0 n))
    <$> seq 0 n) == w * F (Qn i) (Qn j))%Q.
Proof.
  intros Hi Hj.
  destruct (q_lookup i Hi) as (_ & HQi & _).
  destruct (q_lookup j Hj) as (_ & HQj & _).
  rewrite (np_sum_ext _ (fun a => if decide (a = Qn i)
                                  then w * F a (Qn j) else 0)%Q).
  { rewrite (np_sum_delta (fun a => w * F a (Qn j))%Q);
      [reflexivity|apply NoDup_seq|apply elem_of_seq; lia]. }
  intros a Ha. apply elem_of_seq in Ha.
  destruct (decide (a = Qn i)) as [->|Hne].
  - rewrite (np_sum_ext _ (fun b => if decide (b = Qn j)
                                    then w * F (Qn i) b else 0)%Q).
    { rewrite (np_sum_delta (fun b => w * F (Qn i) b)%Q);
        [reflexivity|apply NoDup_seq|apply elem_of_seq; lia]. }
    intros b Hb. apply elem_of_seq in Hb.
    pose proof (proj2 (P_inverse (Qn i) i HQi Hi) eq_refl) as HPi.
    destruct (decide (b = Qn j)) as [->|Hnb].
    + pose proof (proj2 (P_inverse (Qn j) j HQj Hj) eq_refl) as HPj.
      rewrite decide_True; [reflexivity|congruence].
    + rewrite decide_False; [reflexivity|].
      intros [= _ Hb']. apply Hnb, P_inverse; [lia|done|done].
  - rewrite (np_sum_ext _ (fun _ => 0)%Q), np_sum_zeros; [reflexivity|].
    intros b Hb. rewrite decide_False; [reflexivity|].
    intros [= Ha' _]. apply Hne, P_inverse; [lia|done|done].
Qed.

Lemma csum_cons e es ij :
  (csum (e :: es) ij == (if decide (e.1 = ij) then e.2 else 0) + csum es ij)%Q.
Proof.
  unfold csum. rewrite filter_cons. destruct (decide (e.1 = ij)).
  - rewrite fmap_cons. reflexivity.
  - ring.
Qed.

(** The grid sum over the cells of the reordered [toarray] is the sum over
    the stored entries, each at the positions its indices are moved to. *)
Lemma grid_sum_entries (F : nat -> nat -> Q) es :
  Forall (fun e => (e.1.1 < n)%nat /\ (e.1.2 < n)%nat) es ->
  (np_sum ((fun a => np_sum ((fun b => csum es (P a, P b) * F a b) <$> seq 0 n))
     <$> seq 0 n)
   == np_sum ((fun e => e.2 * F (Qn e.1.1) (Qn e.1.2)) <$> es))%Q.
Proof.
  induction 1 as [|[[i j] w] es [Hi Hj] _ IH].
  - rewrite (np_sum_ext _ (fun _ => 0)%Q), np_sum_zeros; [reflexivity|].
    intros a _. rewrite (np_sum_ext _ (fun _ => 0)%Q), np_sum_zeros; [reflexivity|].
    intros b _. unfold csum. simpl. ring.
  - rewrite fmap_cons, np_sum_cons. rewrite <- IH.
    rewrite <- (single_entry F i j w Hi Hj), <- np_sum_plus.
    apply np_sum_ext. intros a _. rewrite <- np_sum_plus.
    apply np_sum_ext. intros b _. rewrite csum_cons. simpl.
    destruct (decide ((i, j) = (P a, P b))); ring.
Qed.

(** The dense score of [toarray(X)] under the ordering [p] is the sparse
    score of [X] under the rank array [argsort(p)]. *)
Lemma dense_score_is_sparse_score_of_inverse (sf : string) dh c :
  exists s s',
    compute_score (Dense (toarray X)) sf dh (Some p) c = Some s
    /\ compute_score (Sparse X) sf dh (Some (argsort Z.leb p)) c = Some s'
    /\ (s == s')%Q.
Proof.
  assert (Hq : valid_perm n (Some q)).
  { unfold valid_perm, q. rewrite argsort_perm.
    by rewrite (perm_length _ _ p_valid). }
  destruct (compute_score_pairs n _ (Some p) sf dh c toarray_square p_valid)
    as (s & Hs & Hqs).
  destruct (compute_score_pairs n _ (Some q) sf dh c X_square Hq)
    as (s' & Hs' & Hqs').
  exists s, s'. split; [done|]. split; [done|].
  rewrite Hqs, Hqs', !weighted_sum_nonzero. clear Hqs Hqs' Hs Hs'.
  set (f := loss_term sf dh c (Z.of_nat n)).
  set (F := fun a b : nat => inject_Z (f (Z.abs (Z.of_nat a - Z.of_nat b)))).
  destruct toarray_square as [Hlen _]. destruct X_square as [_ Hwf].
  unfold weighted_sum, pairs. rewrite np_sum_bind, Hlen. unfold np_sum2.
  rewrite <- !list_fmap_compose.
  transitivity (np_sum ((fun e => e.2 * F (Qn e.1.1) (Qn e.1.2))%Q
                          <$> coo_entries X)).
  - rewrite <- (grid_sum_entries F _ Hwf).
    apply np_sum_ext. intros a Ha. apply elem_of_seq in Ha. simpl.
    rewrite <- list_fmap_compose.
    apply np_sum_ext. intros b Hb. apply elem_of_seq in Hb. simpl.
    rewrite cell_toarray by (apply P_range; lia). reflexivity.
  - apply np_sum_ext. intros [[i j] w] He. simpl.
    rewrite Forall_forall in Hwf. destruct (Hwf _ He) as [Hi Hj]. simpl in *.
    destruct (q_lookup i Hi) as (Hqi & _ & _).
    destruct (q_lookup j Hj) as (Hqj & _ & _).
    unfold F. rewrite Hqi, Hqj. reflexivity.
Qed.

End DenseSparse.



(** * Further properties of the solver *)

Section BodySteps.

Variable spectral_embedding : matrix -> Z -> option (list (list Q)).
Variable np_sqrt : Z -> Q.
Variable cfg : config.

Ltac step H :=
  cbn -[compute_score update_sparse update_dense argsort getitem column] in H.

(** A sparse iteration that goes on: its candidate, oriented, is scored on
    [X] and replaces the best permutation exactly when it scores lower. *)
Lemma sparse_body_next X st st' :
  sparse_body spectral_embedding np_sqrt cfg X st = Some (Next st') ->
  exists embedding col0 new_perm first last s,
    spectral_embedding (sparse_input X st) (default_dim cfg) = Some embedding
    /\ column embedding 0 = Some col0
    /\ getitem (argsort Qle_bool col0) 0 = Some first
    /\ getitem (argsort Qle_bool col0) (-1) = Some last
    /\ new_perm = (if bool_decide (first > last)
                   then flip_perm (Z.of_nat (coo_shape X).1) (argsort Qle_bool col0)
                   else argsort Qle_bool col0)
    /\ compute_score (Sparse X) (score_function cfg) (dh cfg) (Some new_perm) false
       = Some s
    /\ best_perm st' = (if Qlt_bool s (best_score st) then new_perm else best_perm st)
    /\ best_score st' = best_score st
    /\ update_sparse np_sqrt cfg (Z.of_nat (coo_shape X).1) X
         (if bool_decide (first > last) then reverse embedding else embedding)
       = Some (eta st')
    /\ trace st' = trace st
         ++ [EvEmbed (sparse_input X st) (default_dim cfg);
             EvScore (Some new_perm); EvWeights (eta st')].
Proof.
  unfold sparse_body, sparse_input. intros H.
  destruct (spectral_embedding _ _) as [embedding|] eqn:He; [|done]. step H.
  destruct (column embedding 0) as [col0|] eqn:Hc; [|done]. step H.
  case_bool_decide as Hm; [done|].
  destruct (getitem _ 0) as [first|] eqn:Hf; [|done]. step H.
  destruct (getitem _ (-1)) as [last|] eqn:Hl; [|done]. step H.
  destruct (compute_score _ _ _ _ _) as [s|] eqn:Hs; [|done]. step H.
  destruct (update_sparse _ _ _ _ _) as [eta_vec|] eqn:Hu; [|done].
  step H. injection H as <-.
  exists embedding, col0. eexists. exists first, last, s. simpl.
  repeat (split; [done|]). by rewrite <- !app_assoc.
Qed.

Lemma sparse_body_break X st st' :
  sparse_body spectral_embedding np_sqrt cfg X st = Some (Break st') ->
  st' = LoopState (best_perm st) (best_score st) (eta st) (eta_old st)
          (trace st ++ [EvEmbed (sparse_input X st) (default_dim cfg)]).
Proof.
  intros H. destruct (sparse_body_inv _ _ _ _ _ _ H)
    as [[_ [= ->]]|(? & ? & ? & ? & _ & [=])]. done.
Qed.

Lemma dense_body_next X st r :
  dense_body spectral_embedding np_sqrt cfg X st = Some r ->
  exists st' embedding col0 s,
    r = Next st'
    /\ spectral_embedding (dense_input X st) (default_dim cfg) = Some embedding
    /\ column embedding 0 = Some col0
    /\ compute_score (Dense X) (score_function cfg) (dh cfg)
         (Some (argsort Qle_bool col0)) false = Some s
    /\ best_perm st' = (if Qlt_bool s (best_score st)
                        then argsort Qle_bool col0 else best_perm st)
    /\ best_score st' = best_score st
    /\ update_dense np_sqrt cfg (dense_shape X).1 embedding = Some (eta st')
    /\ trace st' = trace st
         ++ [EvEmbed (dense_input X st) (default_dim cfg);
             EvScore (Some (argsort Qle_bool col0));
             EvWeights (concat (eta st'))].
Proof.
  unfold dense_body, dense_input. intros H.
  destruct (spectral_embedding _ _) as [embedding|] eqn:He; [|done]. step H.
  destruct (column embedding 0) as [col0|] eqn:Hc; [|done]. step H.
  destruct (compute_score _ _ _ _ _) as [s|] eqn:Hs; [|done]. step H.
  destruct (update_dense _ _ _ _) as [eta_mat|] eqn:Hu; [|done].
  step H. injection H as <-.
  eexists. exists embedding, col0, s. simpl.
  repeat (split; [done|]). by rewrite <- !app_assoc.
Qed.

End BodySteps.

(** How a whole call unfolds, for [n >= 3]: the score of the identity, then
    one of the two loops from the all-ones weights. *)
Lemma run_inv spectral_embedding np_sqrt cfg X r tr :
  (3 <= (shape X).1)%nat ->
  spectral_eta_trick3 spectral_embedding np_sqrt cfg X = Some (r, tr) ->
  exists s0,
    compute_score X (score_function cfg) (dh cfg) None false = Some s0
    /\ ((exists Xs st',
           X = Sparse Xs
           /\ loop (sparse_body spectral_embedding np_sqrt cfg Xs)
                (Z.to_nat (n_iter cfg))
                (LoopState (arange (shape X).1) s0
                   (replicate (length (coo_entries Xs)) 1%Q)
                   (if truthy (add_momentum cfg)
                    then Some (replicate (length (coo_entries Xs)) 1%Q) else None)
                   [EvScore None]) = Some st'
           /\ r = result cfg (best_perm st') (best_score st') /\ tr = trace st')
        \/ (exists Xd st',
              X = Dense Xd
              /\ loop (dense_body spectral_embedding np_sqrt cfg Xd)
                   (Z.to_nat (n_iter cfg))
                   (LoopState (arange (shape X).1) s0
                      (replicate (shape X).1 (replicate (shape X).1 1%Q)) None
                      [EvScore None]) = Some st'
              /\ r = result cfg (best_perm st') (best_score st')
              /\ tr = trace st')).
Proof.
  intros Hn. unfold spectral_eta_trick3.
  destruct (shape X) as [n n2] eqn:Hshape. simpl in Hn.
  case_bool_decide; [|done]. rewrite bool_decide_eq_false_2 by lia.
  destruct (compute_score X _ _ None false) as [s0|]; [|done].
  cbn -[loop]. intros Hrun. exists s0. split; [done|].
  destruct X as [Xs|Xd].
  - left. destruct (loop _ _ _) as [st'|] eqn:Hl; [|done].
    injection Hrun as <- <-. by exists Xs, st'.
  - right. destruct (loop _ _ _) as [st'|] eqn:Hl; [|done].
    injection Hrun as <- <-. by exists Xd, st'.
Qed.

(** The loop invariant behind the returned permutation: the best permutation
    is the identity until a candidate scores strictly below the score computed
    before the loop, and only such a candidate replaces it. *)
Lemma best_perm_improves spectral_embedding np_sqrt cfg X perm sc tr :
  spectral_eta_trick3 spectral_embedding np_sqrt cfg X = Some ((perm, sc), tr) ->
  perm = arange (shape X).1
  \/ exists s s0,
       compute_score X (score_function cfg) (dh cfg) (Some perm) false = Some s
       /\ compute_score X (score_function cfg) (dh cfg) None false = Some s0
       /\ (s < s0)%Q.
Proof.
  intros Hrun. destruct (decide ((shape X).1 < 3)%nat) as [Hn|Hn].
  { left. revert Hrun. unfold spectral_eta_trick3, result.
    destruct (shape X) as [n n2]. simpl in Hn.
    case_bool_decide; [|done]. rewrite bool_decide_eq_true_2 by done.
    by intros [= <- _ _]. }
  assert (Hn3 : (3 <= (shape X).1)%nat) by lia.
  destruct (run_inv _ _ _ _ _ _ Hn3 Hrun)
    as (s0 & Hs0 & [(Xs & st' & -> & Hl & Hr & _)|(Xd & st' & -> & Hl & Hr & _)]);
    unfold result in Hr; injection Hr as -> _.
  - set (I := fun st : loop_state (list Q) =>
        best_score st = s0
        /\ (best_perm st = arange (shape (Sparse Xs)).1
            \/ exists s, compute_score (Sparse Xs) (score_function cfg) (dh cfg)
                           (Some (best_perm st)) false = Some s /\ (s < s0)%Q)).
    apply (loop_invariant _ I) in Hl as [_ [H|(s & Hs & Hlt)]];
      [by left|right; by exists s, s0| |by split; [|left]].
    intros st [st1|st1] [Hb Hp] Hbody; unfold I; simpl.
    + apply sparse_body_break in Hbody as ->. by split.
    + apply sparse_body_next in Hbody
        as (? & ? & new_perm & ? & ? & s & _ & _ & _ & _ & _ & Hs & Hbp & Hbs & _).
      rewrite Hbp, Hbs. split; [done|]. unfold Qlt_bool.
      destruct (Qle_bool (best_score st) s) eqn:E; simpl; [done|].
      right. exists s. split; [done|]. rewrite <- Hb.
      apply Qnot_le_lt. intros Hle. apply Qle_bool_iff in Hle. congruence.
  - set (I := fun st : loop_state (list (list Q)) =>
        best_score st = s0
        /\ (best_perm st = arange (shape (Dense Xd)).1
            \/ exists s, compute_score (Dense Xd) (score_function cfg) (dh cfg)
                           (Some (best_perm st)) false = Some s /\ (s < s0)%Q)).
    apply (loop_invariant _ I) in Hl as [_ [H|(s & Hs & Hlt)]];
      [by left|right; by exists s, s0| |by split; [|left]].
    intros st r [Hb Hp] Hbody.
    apply dense_body_next in Hbody
      as (st1 & ? & col0 & s & -> & _ & _ & Hs & Hbp & Hbs & _).
    unfold I. simpl. rewrite Hbp, Hbs. split; [done|]. unfold Qlt_bool.
    destruct (Qle_bool (best_score st) s) eqn:E; simpl; [done|].
    right. exists s. split; [done|]. rewrite <- Hb.
    apply Qnot_le_lt. intros Hle. apply Qle_bool_iff in Hle. congruence.
Qed.

(** X11.  Whatever the embedding does, the permutation a call returns is the
    identity or scores strictly below the identity under the configured loss:
    the loop only ever replaces the best permutation by a candidate that beats
    the score computed before the loop. *)
Theorem returned_perm_beats_identity spectral_embedding np_sqrt cfg X perm sc tr :
  spectral_eta_trick3 spectral_embedding np_sqrt cfg X = Some ((perm, sc), tr) ->
  perm = arange (shape X).1
  \/ exists s s0,
       compute_score X (score_function cfg) (dh cfg) (Some perm) false = Some s
       /\ compute_score X (score_function cfg) (dh cfg) None false = Some s0
       /\ (s < s0)%Q.
Proof. apply best_perm_improves. Qed.

Lemma returned_perm_beats_identity_witness :
  [0; 2; 1] = arange (shape (Dense path_dense)).1
  \/ exists s s0,
       compute_score (Dense path_dense) "1SUM" 1 (Some [0; 2; 1]) false = Some s
       /\ compute_score (Dense path_dense) "1SUM" 1 None false = Some s0
       /\ (s < s0)%Q.
Proof.
  eapply (returned_perm_beats_identity (line_embedding [-1; 1; 0]%Q) sqrt_milli
            (Config 5 1 "1SUM" true false None 1 true) (Dense path_dense)).
  vm_compute. reflexivity.
Defined.

Section PermFacts.

Lemma column_length embedding k col :
  column embedding k = Some col -> length col = length embedding.
Proof. intros H. symmetry. by eapply length_mapM. Qed.

Lemma flip_perm_valid n p :
  p ≡ₚ arange n -> flip_perm (Z.of_nat n) p ≡ₚ arange n.
Proof.
  intros Hp. unfold flip_perm. rewrite Hp. apply NoDup_Permutation.
  - apply NoDup_fmap_2_strong.
    + intros x y _ _ H. lia.
    + unfold arange. apply (NoDup_fmap_2 _), NoDup_seq.
  - unfold arange. apply (NoDup_fmap_2 _), NoDup_seq.
  - intros x. rewrite list_elem_of_fmap, elem_of_arange. split.
    + intros (y & -> & Hy). apply elem_of_arange in Hy. lia.
    + intros Hx. exists (Z.of_nat n - 1 - x). split; [lia|].
      apply elem_of_arange. lia.
Qed.

Lemma flip_perm_orients n p first last :
  getitem p 0 = Some first -> getitem p (-1) = Some last -> first > last ->
  exists f l, getitem (flip_perm n p) 0 = Some f
              /\ getitem (flip_perm n p) (-1) = Some l /\ f <= l.
Proof.
  intros Hf Hl Hgt. unfold flip_perm. rewrite !getitem_fmap, Hf, Hl. simpl.
  do 2 eexists. repeat split. lia.
Qed.

End PermFacts.

(** The loop keeps the best permutation a permutation of [0 .. n-1], as long
    as the embedding routine returns one row per item. *)
Lemma best_perm_stays_permutation spectral_embedding np_sqrt cfg X perm sc tr :
  (forall X_w k e, spectral_embedding X_w k = Some e -> length e = (shape X).1) ->
  spectral_eta_trick3 spectral_embedding np_sqrt cfg X = Some ((perm, sc), tr) ->
  perm ≡ₚ arange (shape X).1.
Proof.
  intros Hrows Hrun. destruct (decide ((shape X).1 < 3)%nat) as [Hn|Hn].
  { revert Hrun. unfold spectral_eta_trick3, result.
    destruct (shape X) as [n n2]. simpl in Hn.
    case_bool_decide; [|done]. rewrite bool_decide_eq_true_2 by done.
    by intros [= <- _ _]. }
  assert (Hn3 : (3 <= (shape X).1)%nat) by lia.
  destruct (run_inv _ _ _ _ _ _ Hn3 Hrun)
    as (s0 & Hs0 & [(Xs & st' & -> & Hl & Hr & _)|(Xd & st' & -> & Hl & Hr & _)]);
    unfold result in Hr; injection Hr as -> _.
  - apply (loop_invariant _ (fun st => best_perm st ≡ₚ arange (shape (Sparse Xs)).1))
      in Hl; [done| |done].
    intros st [st1|st1] Hp Hbody; simpl.
    + by apply sparse_body_break in Hbody as ->.
    + apply sparse_body_next in Hbody
        as (e & col0 & new_perm & ? & ? & s & He & Hc & _ & _ & -> & _ & -> & _).
      destruct (Qlt_bool _ _); [|done].
      assert (argsort Qle_bool col0 ≡ₚ arange (shape (Sparse Xs)).1) as Ha.
      { rewrite argsort_perm, (column_length _ _ _ Hc). by rewrite (Hrows _ _ _ He). }
      case_bool_decide; [|done]. by apply flip_perm_valid.
  - apply (loop_invariant _ (fun st => best_perm st ≡ₚ arange (shape (Dense Xd)).1))
      in Hl; [done| |done].
    intros st r Hp Hbody.
    apply dense_body_next in Hbody
      as (st1 & e & col0 & s & -> & He & Hc & _ & Hbp & _). simpl. rewrite Hbp.
    destruct (Qlt_bool _ _); [|done].
    rewrite argsort_perm, (column_length _ _ _ Hc). by rewrite (Hrows _ _ _ He).
Qed.

(** X12.  When the embedding routine returns one row per item, the
    permutation a call returns is a permutation of [0 .. n-1]. *)
Theorem returned_perm_is_permutation spectral_embedding np_sqrt cfg X perm sc tr :
  (forall X_w k e, spectral_embedding X_w k = Some e -> length e = (shape X).1) ->
  spectral_eta_trick3 spectral_embedding np_sqrt cfg X = Some ((perm, sc), tr) ->
  perm ≡ₚ arange (shape X).1.
Proof. apply best_perm_stays_permutation. Qed.

Lemma returned_perm_is_permutation_witness :
  [0; 2; 1] ≡ₚ arange (shape (Dense path_dense)).1.
Proof.
  eapply (returned_perm_is_permutation (line_embedding [-1; 1; 0]%Q) sqrt_milli
            (Config 5 1 "1SUM" true false None 1 true) (Dense path_dense)).
  - intros X_w k e [= <-]. reflexivity.
  - vm_compute. reflexivity.
Defined.

(** X13.  Every candidate the sparse loop scores is oriented: its first entry
    is not above its last. *)
Theorem sparse_candidates_are_oriented spectral_embedding np_sqrt cfg Xs r tr p :
  spectral_eta_trick3 spectral_embedding np_sqrt cfg (Sparse Xs) = Some (r, tr) ->
  EvScore (Some p) ∈ tr ->
  exists first last,
    getitem p 0 = Some first /\ getitem p (-1) = Some last /\ first <= last.
Proof.
  intros Hrun Hin. destruct (decide ((shape (Sparse Xs)).1 < 3)%nat) as [Hn|Hn].
  { revert Hrun. unfold spectral_eta_trick3, result.
    destruct (shape (Sparse Xs)) as [n n2]. simpl in Hn.
    case_bool_decide; [|done]. rewrite bool_decide_eq_true_2 by done.
    intros [= _ <-]. inversion Hin. }
  assert (Hn3 : (3 <= (shape (Sparse Xs)).1)%nat) by lia.
  destruct (run_inv _ _ _ _ _ _ Hn3 Hrun)
    as (s0 & Hs0 & [(X' & st' & [= <-] & Hl & _ & ->)|(? & ? & [=] & _)]).
  revert p Hin.
  refine (loop_invariant _ (fun st => forall p, EvScore (Some p) ∈ trace st ->
           exists first last, getitem p 0 = Some first
             /\ getitem p (-1) = Some last /\ first <= last) _ _ _ _ _ Hl).
  - intros st [st1|st1] Hst Hbody p; simpl.
    + apply sparse_body_break in Hbody as ->. simpl.
      rewrite elem_of_app, list_elem_of_singleton. intros [H|H]; [by apply Hst|done].
    + apply sparse_body_next in Hbody
        as (e & col0 & new_perm & f & l & s & _ & _ & Hf & Hl' & -> & _ & _ & _ & _ & ->).
      rewrite elem_of_app, !elem_of_cons. intros [H|[H|[H|[H|H]]]]; try done.
      * by apply Hst.
      * injection H as ->. case_bool_decide as Hgt.
        -- by eapply flip_perm_orients.
        -- exists f, l. repeat split; [done..|lia].
      * inversion H.
  - intros p Hp. apply list_elem_of_singleton in Hp. done.
Qed.

Lemma sparse_candidates_are_oriented_witness :
  exists first last,
    getitem [0; 1; 2] 0 = Some first /\ getitem [0; 1; 2] (-1) = Some last
    /\ first <= last.
Proof.
  eapply (sparse_candidates_are_oriented (line_embedding [2; 1; 0]%Q) sqrt_milli
            (Config 1 1 "1SUM" false false None 1 true) path_coo).
  - vm_compute. reflexivity.
  - apply list_elem_of_In. simpl. tauto.
Defined.

Section Calls.

Variable spectral_embedding : matrix -> Z -> option (list (list Q)).
Variable np_sqrt : Z -> Q.
Variable cfg : config.

Lemma requested_app t1 t2 : requested (t1 ++ t2) = requested t1 ++ requested t2.
Proof. apply omap_app. Qed.

Lemma replicate_snoc {A} m (x : A) : replicate m x ++ [x] = replicate (S m) x.
Proof. induction m as [|m IH]; simpl; [done|]. by rewrite IH. Qed.

Lemma sparse_loop_calls X k : forall st st',
  loop (sparse_body spectral_embedding np_sqrt cfg X) k st = Some st' ->
  exists m, (m <= k)%nat
    /\ requested (trace st') = requested (trace st) ++ replicate m (default_dim cfg).
Proof.
  induction k as [|k IH]; intros st st' Hl; simpl in Hl.
  - injection Hl as <-. exists 0%nat. split; [done|]. by rewrite app_nil_r.
  - destruct (sparse_body _ _ _ _ _) as [[st1|st1]|] eqn:Hb; [| |done]; simpl in Hl.
    + injection Hl as <-. apply sparse_body_break in Hb as ->.
      exists 1%nat. split; [lia|]. simpl. by rewrite requested_app.
    + apply sparse_body_next in Hb
        as (? & ? & ? & ? & ? & ? & _ & _ & _ & _ & _ & _ & _ & _ & _ & Ht).
      destruct (IH _ _ Hl) as (m & Hm & Hreq).
      exists (S m). split; [lia|].
      rewrite Hreq, Ht, requested_app. simpl.
      by rewrite <- app_assoc.
Qed.

Lemma dense_loop_calls X k : forall st st',
  loop (dense_body spectral_embedding np_sqrt cfg X) k st = Some st' ->
  requested (trace st') = requested (trace st) ++ replicate k (default_dim cfg).
Proof.
  induction k as [|k IH]; intros st st' Hl; simpl in Hl.
  - injection Hl as <-. by rewrite app_nil_r.
  - destruct (dense_body _ _ _ _ _) as [r|] eqn:Hb; [|done]; simpl in Hl.
    apply dense_body_next in Hb
      as (st1 & ? & ? & ? & -> & _ & _ & _ & _ & _ & _ & Ht).
    rewrite (IH _ _ Hl), Ht, requested_app. simpl.
    by rewrite <- app_assoc.
Qed.

End Calls.

(** X14.  A call makes at most [n_iter] embedding calls, exactly [n_iter] on
    a dense input of three items or more, and each asks for the same number of
    components: 8, or [avg_dim + 1] when [avg_dim > 8], never fewer than
    [avg_dim]. *)
Theorem embedding_calls_bounded spectral_embedding np_sqrt cfg X r tr :
  spectral_eta_trick3 spectral_embedding np_sqrt cfg X = Some (r, tr) ->
  exists m,
    requested tr = replicate m (default_dim cfg)
    /\ (m <= Z.to_nat (n_iter cfg))%nat
    /\ (forall Xd, X = Dense Xd -> (3 <= length Xd)%nat -> m = Z.to_nat (n_iter cfg))
    /\ 8 <= default_dim cfg /\ avg_dim cfg <= default_dim cfg.
Proof.
  intros Hrun.
  assert (Hdim : 8 <= default_dim cfg /\ avg_dim cfg <= default_dim cfg).
  { unfold default_dim. case_bool_decide; lia. }
  destruct (decide ((shape X).1 < 3)%nat) as [Hn|Hn].
  { exists 0%nat. revert Hrun. unfold spectral_eta_trick3, result.
    destruct (shape X) as [n n2] eqn:Hs. simpl in Hn.
    case_bool_decide; [|done]. rewrite bool_decide_eq_true_2 by done.
    intros [= _ <-]. repeat split; try done; try lia.
    intros Xd -> Hlen. simpl in Hs. injection Hs as <- _. lia. }
  assert (Hn3 : (3 <= (shape X).1)%nat) by lia.
  destruct (run_inv _ _ _ _ _ _ Hn3 Hrun)
    as (s0 & Hs0 & [(Xs & st' & -> & Hl & _ & ->)|(Xd & st' & -> & Hl & _ & ->)]).
  - apply sparse_loop_calls in Hl as (m & Hm & Hreq). exists m.
    repeat split; try done; lia.
  - apply dense_loop_calls in Hl. exists (Z.to_nat (n_iter cfg)).
    repeat split; try done; lia.
Qed.

Section Pattern.

Lemma np_add_length a b e : np_add a b = Some e -> length e = length a.
Proof.
  unfold np_add. case_bool_decide; [|done]. intros [= <-].
  rewrite length_zip_with. lia.
Qed.

Lemma accumulate_length (eta_add : nat -> option (list Q)) dims e0 e :
  accumulate eta_add dims e0 = Some e -> length e = length e0.
Proof.
  revert e0. induction dims as [|dim dims IH]; intros e0 H; simpl in H.
  - by injection H as <-.
  - destruct (eta_add dim) as [a|]; [|done]. simpl in H.
    destruct (np_add e0 a) as [e1|] eqn:He1; [|done]. simpl in H.
    rewrite (IH _ H). by eapply np_add_length.
Qed.

Lemma reweight_sparse_pattern X eta_vec :
  length eta_vec = length (coo_entries X) ->
  coo_shape (reweight_sparse X eta_vec) = coo_shape X
  /\ (coo_entries (reweight_sparse X eta_vec)).*1 = (coo_entries X).*1.
Proof.
  intros Hlen. split; [done|]. simpl. revert eta_vec Hlen.
  induction (coo_entries X) as [|e es IH]; intros [|w ws] Hlen; simpl in *;
    try done.
  f_equal. apply IH. lia.
Qed.

End Pattern.

(** X15.  Every matrix the sparse loop hands to the embedding has the shape
    of [X] and the same stored positions, in the same order: reweighting
    touches the data only. *)
Theorem reweighted_keeps_pattern spectral_embedding np_sqrt cfg Xs r tr X_w k :
  spectral_eta_trick3 spectral_embedding np_sqrt cfg (Sparse Xs) = Some (r, tr) ->
  EvEmbed X_w k ∈ tr ->
  exists Xw, X_w = Sparse Xw /\ coo_shape Xw = coo_shape Xs
             /\ (coo_entries Xw).*1 = (coo_entries Xs).*1.
Proof.
  intros Hrun Hin. destruct (decide ((shape (Sparse Xs)).1 < 3)%nat) as [Hn|Hn].
  { revert Hrun. unfold spectral_eta_trick3, result.
    destruct (shape (Sparse Xs)) as [n n2]. simpl in Hn.
    case_bool_decide; [|done]. rewrite bool_decide_eq_true_2 by done.
    intros [= _ <-]. inversion Hin. }
  assert (Hn3 : (3 <= (shape (Sparse Xs)).1)%nat) by lia.
  destruct (run_inv _ _ _ _ _ _ Hn3 Hrun)
    as (s0 & Hs0 & [(X' & st' & [= <-] & Hl & _ & ->)|(? & ? & [=] & _)]).
  revert X_w k Hin.
  refine (proj2 (loop_invariant _ (fun st =>
            length (eta st) = length (coo_entries Xs)
            /\ forall X_w k, EvEmbed X_w k ∈ trace st ->
                 exists Xw, X_w = Sparse Xw /\ coo_shape Xw = coo_shape Xs
                   /\ (coo_entries Xw).*1 = (coo_entries Xs).*1) _ _ _ _ _ Hl)).
  - intros st r' [Hlen Hst] Hbody.
    assert (Hnew : exists Xw, sparse_input Xs st = Sparse Xw
              /\ coo_shape Xw = coo_shape Xs
              /\ (coo_entries Xw).*1 = (coo_entries Xs).*1).
    { eexists. split; [done|]. by apply reweight_sparse_pattern. }
    destruct r' as [st1|st1]; simpl.
    + apply sparse_body_break in Hbody as ->. simpl. split; [done|].
      intros X_w k. rewrite elem_of_app, list_elem_of_singleton.
      intros [H|[= -> _]]; [by eapply Hst|done].
    + apply sparse_body_next in Hbody
        as (? & ? & ? & ? & ? & ? & _ & _ & _ & _ & _ & _ & _ & _ & Hu & ->).
      split.
      * unfold update_sparse in Hu. apply accumulate_length in Hu.
        by rewrite length_replicate in Hu.
      * intros X_w k. rewrite elem_of_app, !elem_of_cons.
        intros [H|[[= -> _]|[H|[H|H]]]]; try done; [by eapply Hst|inversion H].
  - split; [simpl; by rewrite length_replicate|].
    intros X_w k H. apply list_elem_of_singleton in H. done.
Qed.

Lemma reweighted_keeps_pattern_witness :
  exists Xw,
    Sparse (reweight_sparse chain_coo [1; 1; 1; 1]%Q) = Sparse Xw
    /\ coo_shape Xw = coo_shape chain_coo
    /\ (coo_entries Xw).*1 = (coo_entries chain_coo).*1.
Proof.
  eapply (reweighted_keeps_pattern (line_embedding [-1; 1; 0]%Q) sqrt_milli
            (Config 1 1 "1SUM" false false None 1 true) chain_coo _ _ _ 8).
  - vm_compute. reflexivity.
  - apply list_elem_of_In. simpl. right. left. reflexivity.
Defined.

Lemma best_score_never_replaced_witness :
  compute_score (Dense path_dense) "1SUM" 1 None false = Some 6%Q.
Proof.
  eapply (best_score_never_replaced (line_embedding [-1; 1; 0]%Q) sqrt_milli
            (Config 5 1 "1SUM" true false None 1 true) (Dense path_dense)).
  - simpl. lia.
  - vm_compute. reflexivity.
Defined.

(** X17.  With [avg_dim <= 0] the dimension loop of the sparse update does
    not run: every weight structure it assigns is all zeros. *)
Theorem no_dimension_gives_zero_weights spectral_embedding np_sqrt cfg Xs r tr eta :
  avg_dim cfg <= 0 ->
  spectral_eta_trick3 spectral_embedding np_sqrt cfg (Sparse Xs) = Some (r, tr) ->
  EvWeights eta ∈ tr ->
  eta = replicate (length (coo_entries Xs)) 0%Q.
Proof.
  intros Ha Hrun Hin. destruct (decide ((shape (Sparse Xs)).1 < 3)%nat) as [Hn|Hn].
  { revert Hrun. unfold spectral_eta_trick3, result.
    destruct (shape (Sparse Xs)) as [n n2]. simpl in Hn.
    case_bool_decide; [|done]. rewrite bool_decide_eq_true_2 by done.
    intros [= _ <-]. inversion Hin. }
  assert (Hn3 : (3 <= (shape (Sparse Xs)).1)%nat) by lia.
  destruct (run_inv _ _ _ _ _ _ Hn3 Hrun)
    as (s0 & Hs0 & [(X' & st' & [= <-] & Hl & _ & ->)|(? & ? & [=] & _)]).
  revert eta Hin.
  refine (loop_invariant _ (fun st => forall eta, EvWeights eta ∈ trace st ->
            eta = replicate (length (coo_entries Xs)) 0%Q) _ _ _ _ _ Hl).
  - intros st [st1|st1] Hst Hbody eta; simpl.
    + apply sparse_body_break in Hbody as ->. simpl.
      rewrite elem_of_app, list_elem_of_singleton. intros [H|H]; [by apply Hst|done].
    + apply sparse_body_next in Hbody
        as (? & ? & ? & ? & ? & ? & _ & _ & _ & _ & _ & _ & _ & _ & Hu & ->).
      rewrite elem_of_app, !elem_of_cons.
      intros [H|[H|[H|[H|H]]]]; try done; [by apply Hst| |inversion H].
      injection H as ->. unfold update_sparse, dims in Hu.
      replace (Z.to_nat _) with 0%nat in Hu by lia. by injection Hu as <-.
  - intros eta H. apply list_elem_of_singleton in H. done.
Qed.

Lemma no_dimension_gives_zero_weights_witness :
  [0; 0; 0; 0]%Q = replicate (length (coo_entries chain_coo)) 0%Q.
Proof.
  eapply (no_dimension_gives_zero_weights (line_embedding [-1; 1; 0]%Q) sqrt_milli
            (Config 1 1 "1SUM" false false None 0 true) chain_coo).
  - simpl. lia.
  - vm_compute. reflexivity.
  - apply list_elem_of_In. simpl. tauto.
Defined.

(** X18.  With [n_iter <= 0] a call on three items or more scores the
    identity and returns it, without any embedding. *)
Theorem no_iteration_returns_identity spectral_embedding np_sqrt cfg X :
  (shape X).1 = (shape X).2 -> (3 <= (shape X).1)%nat -> n_iter cfg <= 0 ->
  spectral_eta_trick3 spectral_embedding np_sqrt cfg X
  = (s0 ← compute_score X (score_function cfg) (dh cfg) None false;
     Some ((arange (shape X).1, if return_score cfg then Some s0 else None),
           [EvScore None])).
Proof.
  intros Hsq Hn Hit. unfold spectral_eta_trick3, result.
  destruct (shape X) as [n n2]. simpl in *.
  rewrite bool_decide_eq_true_2 by done. rewrite bool_decide_eq_false_2 by lia.
  replace (Z.to_nat (n_iter cfg)) with 0%nat by lia.
  destruct (compute_score X _ _ None false); [|done]. by destruct X.
Qed.

Lemma no_iteration_returns_identity_witness :
  spectral_eta_trick3 (line_embedding [-1; 1; 0]%Q) sqrt_milli
    (Config 0 1 "1SUM" true false None 1 true) (Dense path_dense)
  = (s0 ← compute_score (Dense path_dense) "1SUM" 1 None false;
     Some ((arange 3, Some s0), [EvScore None])).
Proof.
  apply (no_iteration_returns_identity (line_embedding [-1; 1; 0]%Q) sqrt_milli
           (Config 0 1 "1SUM" true false None 1 true) (Dense path_dense)).
  - reflexivity.
  - simpl. lia.
  - simpl. lia.
Defined.

(** * The older solver *)

Section BaselineFacts.

Variable fit_transform : matrix -> option (list Z).
Variable random_permutation : nat -> list Z.
Variable cfg : config.
Hypothesis dh_pos : 1 <= dh cfg.
Hypothesis gamma_range :
  forall g, add_momentum cfg = Some g -> (0 <= g <= 1)%Q.

Let above_one (w : Q) : Prop := (1 <= w)%Q.
Let above_dh (w : Q) : Prop := (inject_Z (dh cfg) <= w)%Q.

Lemma above_dh_one w : above_dh w -> above_one w.
Proof.
  unfold above_dh, above_one. intros H. eapply Qle_trans; [|exact H].
  change 1%Q with (inject_Z 1). rewrite <- Zle_Qle. lia.
Qed.

Lemma clamped_above_dh (l : list Z) :
  Forall above_dh (inject_Z <$> (Z.max (dh cfg) <$> l)).
Proof.
  rewrite <- list_fmap_compose. apply Forall_fmap, Forall_true. intros x.
  unfold above_dh. simpl. rewrite <- Zle_Qle. lia.
Qed.

Lemma blend_above_one g raw previous :
  (0 <= g <= 1)%Q -> Forall above_one raw -> Forall above_one previous ->
  Forall above_one (zip_with (fun e o => ((1 - g) * e + g * o)%Q) raw previous).
Proof.
  intros Hg Hraw. revert previous.
  induction Hraw as [|e raw He _ IH]; intros [|o previous] Hprev; simpl;
    try constructor.
  - apply Forall_cons_1 in Hprev as [Ho _]. unfold above_one in *.
    assert (0 <= (1 - g) * (e - 1))%Q by (apply Qmult_le_0_compat; lra).
    assert (0 <= g * (o - 1))%Q by (apply Qmult_le_0_compat; lra).
    lra.
  - apply IH. by apply Forall_cons_1 in Hprev as [_ Hprev].
Qed.

(** The sparse update: at least one, and at least [dh] without momentum. *)
Lemma eta_trick_update_floor n X new_perm previous eta_vec :
  eta_trick_update cfg n X new_perm previous = Some eta_vec ->
  Forall above_one previous ->
  Forall above_one eta_vec
  /\ (truthy (add_momentum cfg) = false -> Forall above_dh eta_vec).
Proof.
  unfold eta_trick_update. intros H Hprev.
  destruct (take_idx _ (coo_row X)) as [pr|]; [|done]. simpl in H.
  destruct (take_idx _ (coo_col X)) as [pc|]; [|done]. simpl in H.
  set (raw := inject_Z <$> (Z.max (dh cfg) <$> _)) in H.
  assert (Hraw : Forall above_dh raw) by apply clamped_above_dh.
  assert (Hraw1 : Forall above_one raw).
  { eapply Forall_impl; [exact Hraw|]. apply above_dh_one. }
  destruct (add_momentum cfg) as [g|] eqn:Hg.
  - change (negb (Qeq_bool g 0)) with (truthy (Some g)) in H.
    destruct (truthy (Some g)) eqn:Ht; injection H as <-.
    + split; [|done]. apply blend_above_one; [by apply gamma_range|done..].
    + done.
  - injection H as <-. done.
Qed.

Lemma chunks_rows {A} (P : A -> Prop) rows cols (l : list A) :
  Forall P l -> Forall (Forall P) (chunks rows cols l).
Proof.
  revert l. induction rows as [|r IH]; intros l Hl; simpl; constructor.
  - by apply Forall_take.
  - apply IH. by apply Forall_drop.
Qed.

Lemma eta_trick_update_dense_floor n new_perm eta_mat :
  eta_trick_update_dense cfg n new_perm = Some eta_mat ->
  Forall above_dh (concat eta_mat).
Proof.
  unfold eta_trick_update_dense. intros H.
  destruct (reshape _ _ _) as [grid|]; [|done]. simpl in H. injection H as <-.
  apply Forall_concat, Forall_fmap, Forall_true. intros row. simpl.
  apply Forall_fmap, Forall_true. intros x. unfold above_dh. simpl.
  rewrite <- Zle_Qle. lia.
Qed.

Lemma eta_trick_sparse_step X st r :
  eta_trick_sparse_body fit_transform cfg X st = Some r ->
  (trace (flow_state r) = trace st /\ eta (flow_state r) = eta st)
  \/ exists new_perm,
       eta_trick_update cfg (Z.of_nat (coo_shape X).1) X new_perm (eta st)
       = Some (eta (flow_state r))
       /\ trace (flow_state r)
          = trace st ++ [EvScore (Some new_perm); EvWeights (eta (flow_state r))].
Proof.
  unfold eta_trick_sparse_body. intros H.
  destruct (fit_transform _) as [new_perm|]; [|done].
  cbn -[compute_score eta_trick_update] in H.
  case_bool_decide; [injection H as <-; by left|].
  destruct (compute_score _ _ _ _ _) as [s|]; [|done].
  cbn -[eta_trick_update] in H.
  destruct (eta_trick_update _ _ _ _ _) as [eta_vec|] eqn:Hu; [|done].
  cbn in H. injection H as <-. right. exists new_perm. simpl.
  split; [done|]. by rewrite <- app_assoc.
Qed.

Lemma eta_trick_dense_step X st r :
  eta_trick_dense_body fit_transform cfg X st = Some r ->
  trace (flow_state r) = trace st
  \/ exists new_perm eta_mat,
       eta_trick_update_dense cfg (dense_shape X).1 new_perm = Some eta_mat
       /\ trace (flow_state r)
          = trace st ++ [EvScore (Some new_perm); EvWeights (concat eta_mat)].
Proof.
  unfold eta_trick_dense_body. intros H.
  destruct (fit_transform _) as [new_perm|]; [|done].
  cbn -[compute_score eta_trick_update_dense] in H.
  case_bool_decide; [injection H as <-; by left|].
  destruct (compute_score _ _ _ _ _) as [s|]; [|done].
  cbn -[eta_trick_update_dense] in H.
  destruct (eta_trick_update_dense _ _ _) as [eta_mat|] eqn:Hu; [|done].
  cbn in H. injection H as <-. right. exists new_perm, eta_mat. simpl.
  split; [done|]. by rewrite <- app_assoc.
Qed.

Lemma eta_trick_floor X r tr eta_w :
  spectral_eta_trick fit_transform random_permutation cfg X = Some (r, tr) ->
  EvWeights eta_w ∈ tr ->
  Forall above_one eta_w
  /\ (truthy (add_momentum cfg) = false -> Forall above_dh eta_w).
Proof.
  unfold spectral_eta_trick. destruct (shape X) as [n n2].
  case_bool_decide; [|done].
  destruct (compute_score X _ _ _ false) as [s0|]; [|done].
  cbn -[loop]. destruct X as [Xs|Xd].
  - destruct (loop _ _ _) as [st'|] eqn:Hl; [|done]. cbn. intros [= _ <-].
    revert eta_w.
    refine (proj2 (loop_invariant _ (fun st =>
      Forall above_one (eta st)
      /\ forall e, EvWeights e ∈ trace st ->
           Forall above_one e
           /\ (truthy (add_momentum cfg) = false -> Forall above_dh e))
      _ _ _ _ _ Hl)).
    + intros st r' [Heta Hst] Hb.
      destruct (eta_trick_sparse_step _ _ _ Hb) as [[-> ->]|(p & Hu & ->)]; [done|].
      destruct (eta_trick_update_floor _ _ _ _ _ Hu Heta) as [H1 Hd].
      split; [done|]. intros e. rewrite elem_of_app, !elem_of_cons.
      intros [He|[He|[He|He]]]; try done; [by apply Hst| |inversion He].
      by injection He as ->.
    + simpl. split; [apply Forall_replicate; unfold above_one; lra|].
      intros e He. apply list_elem_of_singleton in He. done.
  - destruct (loop _ _ _) as [st'|] eqn:Hl; [|done]. cbn. intros [= _ <-].
    revert eta_w.
    refine (loop_invariant _ (fun st =>
      forall e, EvWeights e ∈ trace st ->
        Forall above_one e
        /\ (truthy (add_momentum cfg) = false -> Forall above_dh e))
      _ _ _ _ _ Hl).
    + intros st r' Hst Hb.
      destruct (eta_trick_dense_step _ _ _ Hb) as [->|(p & m & Hu & ->)]; [done|].
      apply eta_trick_update_dense_floor in Hu.
      intros e. rewrite elem_of_app, !elem_of_cons.
      intros [He|[He|[He|He]]]; try done; [by apply Hst| |inversion He].
      injection He as ->. split; [|done].
      eapply Forall_impl; [exact Hu|]. apply above_dh_one.
    + intros e He. apply list_elem_of_singleton in He. done.
Qed.

End BaselineFacts.

(** X19.  In [spectral_eta_trick] with [dh >= 1] and a momentum, if any,
    between 0 and 1, no weight ever falls below 1, so none is zero; without
    momentum none falls below [dh].  With momentum the floor [dh] itself can
    be missed: the blend starts from the all-ones weights. *)
Theorem eta_trick_weights_at_least_one fit_transform random_permutation cfg X
    r tr eta_w :
  1 <= dh cfg ->
  (forall g, add_momentum cfg = Some g -> (0 <= g <= 1)%Q) ->
  spectral_eta_trick fit_transform random_permutation cfg X = Some (r, tr) ->
  EvWeights eta_w ∈ tr ->
  Forall (fun w => (1 <= w)%Q) eta_w
  /\ (truthy (add_momentum cfg) = false ->
      Forall (fun w => (inject_Z (dh cfg) <= w)%Q) eta_w).
Proof. intros Hd Hg. by apply eta_trick_floor. Qed.

Lemma eta_trick_weights_at_least_one_witness :
  exists r tr eta_w,
    spectral_eta_trick (fixed_ordering [0; 2; 1]) (fun _ => [1; 0; 2])
      (Config 3 2 "1SUM" true false (Some (1 # 2)) 1 true) (Sparse chain_coo)
      = Some (r, tr)
    /\ last tr = Some (EvWeights eta_w)
    /\ Forall (fun w => (1 <= w)%Q) eta_w
    /\ (truthy (Some (1 # 2)) = false ->
        Forall (fun w => (inject_Z 2 <= w)%Q) eta_w).
Proof.
  do 3 eexists. split; [vm_compute; reflexivity|]. split; [reflexivity|].
  eapply (eta_trick_weights_at_least_one (fixed_ordering [0; 2; 1])
            (fun _ => [1; 0; 2])
            (Config 3 2 "1SUM" true false (Some (1 # 2)) 1 true) (Sparse chain_coo)).
  - simpl. lia.
  - intros g [= <-]. split; vm_compute; discriminate.
  - vm_compute. reflexivity.
  - apply list_elem_of_In. simpl. tauto.
Defined.

Lemma embedding_calls_bounded_witness :
  exists m,
    requested [EvScore None; EvEmbed (sparse_input path_coo (sparse_start path_coo 6)) 8]
    = replicate m 8
    /\ (m <= 5)%nat
    /\ (forall Xd, Sparse path_coo = Dense Xd -> (3 <= length Xd)%nat -> m = 5%nat)
    /\ 8 <= 8 /\ 1 <= 8.
Proof.
  apply (embedding_calls_bounded (line_embedding [0; 1; 2]%Q) sqrt_milli
           (Config 5 1 "1SUM" false false None 1 true) (Sparse path_coo)
           ([0; 1; 2], None)).
  vm_compute. reflexivity.
Defined.

(** * The experimental solver *)

Section ExperimentalFacts.

Variable spectral_embedding_default : matrix -> option (list (list Q)).

Lemma sparse_body2_score p X st r :
  sparse_body2 spectral_embedding_default p X st = Some r ->
  best_score (flow_state r) = best_score st.
Proof.
  unfold sparse_body2. intros H.
  destruct (spectral_embedding_default _) as [embedding|]; [|done].
  cbn -[p_sum_score embedding_distance argsort getitem column] in H.
  destruct (column embedding 0) as [col0|]; [|done].
  cbn -[p_sum_score embedding_distance argsort getitem] in H.
  case_bool_decide; [by injection H as <-|].
  destruct (getitem _ 0) as [first|]; [|done].
  cbn -[p_sum_score embedding_distance argsort getitem] in H.
  destruct (getitem _ (-1)) as [last|]; [|done].
  cbn -[p_sum_score embedding_distance argsort] in H.
  destruct (p_sum_score _ _ _) as [s|]; [|done].
  cbn -[embedding_distance argsort] in H.
  destruct (embedding_distance _ _) as [eta_vec|]; [|done].
  cbn in H. by injection H as <-.
Qed.

Lemma dense_body2_step p X st r :
  dense_body2 spectral_embedding_default p X st = Some r ->
  exists new_perm embedding eta_mat,
    update2_dense (dense_shape X).1 embedding = Some eta_mat
    /\ best_score (flow_state r) = best_score st
    /\ trace (flow_state r)
       = trace st ++ [EvScore (Some new_perm); EvWeights (concat eta_mat)].
Proof.
  unfold dense_body2. intros H.
  destruct (spectral_embedding_default _) as [embedding|]; [|done].
  cbn -[p_sum_score update2_dense argsort column] in H.
  destruct (column embedding 0) as [col0|]; [|done].
  cbn -[p_sum_score update2_dense argsort] in H.
  destruct (p_sum_score _ _ _) as [s|]; [|done].
  cbn -[update2_dense argsort] in H.
  destruct (update2_dense _ _) as [eta_mat|] eqn:Hu; [|done].
  cbn in H. injection H as <-. do 3 eexists. split; [exact Hu|]. simpl.
  split; [done|]. by rewrite <- app_assoc.
Qed.

End ExperimentalFacts.

(** X20.  [spectral_eta_trick2] never returns a computed score: when a score
    is asked for it is [-1] below three items and the starting bound
    [n^(p+2)] otherwise, whatever the loop found. *)
Theorem experimental_score_is_sentinel spectral_embedding_default n_iter p
    add_momentum X perm sc tr :
  spectral_eta_trick2 spectral_embedding_default n_iter p true add_momentum X
    = Some ((perm, Some sc), tr) ->
  sc = if bool_decide ((shape X).1 < 3)%nat then (-1)%Q
       else inject_Z (Z.of_nat (shape X).1 ^ (Z.of_nat p + 2)).
Proof.
  unfold spectral_eta_trick2. destruct (shape X) as [n n2]. simpl.
  case_bool_decide; [|done]. case_bool_decide; [by intros [= _ <- _]|].
  destruct X as [Xs|Xd].
  - destruct (loop _ _ _) as [st'|] eqn:Hl; [|done]. cbn. intros [= _ <- _].
    refine (loop_invariant _ (fun st => best_score st = _) _ _ _ _ _ Hl); [|done].
    intros st r Hst Hb. by rewrite (sparse_body2_score _ _ _ _ _ Hb).
  - destruct (loop _ _ _) as [st'|] eqn:Hl; [|done]. cbn. intros [= _ <- _].
    refine (loop_invariant _ (fun st => best_score st = _) _ _ _ _ _ Hl); [|done].
    intros st r Hst Hb.
    destruct (dense_body2_step _ _ _ _ _ Hb) as (? & ? & ? & _ & -> & _). done.
Qed.

Lemma experimental_score_is_sentinel_witness :
  27%Q = if bool_decide ((shape (Dense path_dense)).1 < 3)%nat then (-1)%Q
         else inject_Z (Z.of_nat (shape (Dense path_dense)).1 ^ (Z.of_nat 1 + 2)).
Proof.
  eapply (experimental_score_is_sentinel (line_embedding_default [-1; 1; 0]%Q)
            2 1 None (Dense path_dense)).
  vm_compute. reflexivity.
Defined.

Section RankWeights.

Lemma np_tile_fmap {A B} (h : A -> B) l n : np_tile (h <$> l) n = h <$> np_tile l n.
Proof.
  unfold np_tile. induction n as [|n IH]; simpl; [done|].
  by rewrite fmap_app, IH.
Qed.

Lemma np_repeat_fmap {A B} (h : A -> B) l n :
  np_repeat (h <$> l) n = h <$> np_repeat l n.
Proof.
  unfold np_repeat. induction l as [|x l IH]; [done|].
  rewrite fmap_cons, !bind_cons, fmap_app, IH. by rewrite fmap_replicate.
Qed.

Lemma elem_of_np_tile {A} (x : A) l n : x ∈ np_tile l n -> x ∈ l.
Proof.
  unfold np_tile. induction n as [|n IH]; simpl; [by inversion 1|].
  rewrite elem_of_app. intros [H|H]; [done|by apply IH].
Qed.

Lemma elem_of_np_repeat {A} (x : A) l n : x ∈ np_repeat l n -> x ∈ l.
Proof.
  unfold np_repeat. rewrite list_elem_of_bind. intros (y & Hx & Hy).
  by apply elem_of_replicate in Hx as [-> _].
Qed.

Lemma length_np_tile {A} (l : list A) n : length (np_tile l n) = (n * length l)%nat.
Proof.
  unfold np_tile. induction n as [|n IH]; simpl; [done|].
  rewrite length_app, IH. lia.
Qed.

Lemma length_np_repeat {A} (l : list A) n :
  length (np_repeat l n) = (n * length l)%nat.
Proof.
  unfold np_repeat. induction l as [|x l IH]; [simpl; lia|].
  rewrite bind_cons, length_app, length_replicate, IH. simpl. lia.
Qed.

Lemma list_as_fmap_seq {A} (d : A) (l : list A) :
  l = (fun i => default d (l !! i)) <$> seq 0 (length l).
Proof.
  apply list_eq. intros i. rewrite list_lookup_fmap.
  destruct (decide (i < length l)%nat) as [Hi|Hi].
  - rewrite lookup_seq_lt by done. simpl.
    by destruct (lookup_lt_is_Some_2 l i Hi) as [x ->].
  - rewrite lookup_seq_ge, lookup_ge_None_2 by lia. done.
Qed.

Lemma zip_with_cross {A B} (f : Q -> Q -> Q) (g : A -> A -> Q) (k : B -> B -> Q)
    (h : A -> B) I J :
  zip_with f (zip_with g I J) (zip_with k (h <$> J) (h <$> I))
  = zip_with (fun i j => f (g i j) (k (h j) (h i))) I J.
Proof.
  revert J. induction I as [|i I IH]; intros [|j J]; simpl; try done.
  f_equal. apply IH.
Qed.

Lemma Forall_zip_with_elems {A B C} (P : C -> Prop) (f : A -> B -> C) I J :
  (forall i j, i ∈ I -> j ∈ J -> P (f i j)) -> Forall P (zip_with f I J).
Proof.
  revert J. induction I as [|i I IH]; intros [|j J] H; simpl; try constructor.
  - apply H; left.
  - apply IH. intros i' j' Hi Hj. apply H; by right.
Qed.

Lemma accumulate_at_least (c : Q) (eta_add : nat -> option (list Q)) dims e0 e :
  (forall dim a, eta_add dim = Some a -> Forall (fun w => (0 <= w)%Q) a) ->
  accumulate eta_add dims e0 = Some e ->
  Forall (fun w => (c <= w)%Q) e0 -> Forall (fun w => (c <= w)%Q) e.
Proof.
  intros Hadd. revert e0. induction dims as [|dim dims IH]; intros e0 H He0.
  - by injection H as <-.
  - simpl in H. destruct (eta_add dim) as [a|] eqn:Ha; [|done]. simpl in H.
    destruct (np_add e0 a) as [e1|] eqn:He1; [|done]. simpl in H.
    apply (IH e1 H). specialize (Hadd _ _ Ha).
    unfold np_add in He1. case_bool_decide as Hlen; [|done]. injection He1 as <-.
    clear -He0 Hadd. revert a Hadd.
    induction He0 as [|x e0 Hx _ IH]; intros [|y a] Ha; simpl; try constructor.
    + apply Forall_cons_1 in Ha as [Hy _]. lra.
    + apply IH. by apply Forall_cons_1 in Ha as [_ Ha].
Qed.

Lemma rank_distance_nonneg n embedding dim a :
  rank_distance n embedding dim = Some a -> Forall (fun w => (0 <= w)%Q) a.
Proof.
  unfold rank_distance. destruct (dim_ranks _ _) as [ranks|]; [|done].
  cbn -[Qabs Qminus]. intros [= <-]. apply Forall_zip_with_elems.
  intros x y _ _. exact (Qabs_nonneg (x - y)).
Qed.

Lemma integer_gap (a b : Z) :
  a <> b ->
  (1 <= Qabs (1 / inject_Z (1 + Z.of_nat 0) * inject_Z a
              - 1 / inject_Z (1 + Z.of_nat 0) * inject_Z b))%Q.
Proof.
  intros Hne. change (1 + Z.of_nat 0) with 1.
  assert (E : (1 / inject_Z 1 * inject_Z a - 1 / inject_Z 1 * inject_Z b
               == inject_Z (a - b))%Q).
  { unfold Z.sub. rewrite inject_Z_plus, inject_Z_opp. field. }
  rewrite E. destruct (Z_lt_le_dec b a) as [Hlt|Hle].
  - eapply Qle_trans; [|apply Qle_Qabs].
    change 1%Q with (inject_Z 1). rewrite <- Zle_Qle. lia.
  - rewrite <- Qabs_opp. eapply Qle_trans; [|apply Qle_Qabs].
    rewrite <- inject_Z_opp. change 1%Q with (inject_Z 1).
    rewrite <- Zle_Qle. lia.
Qed.

(** The first round on top of the identity: one on the diagonal, at least
    one elsewhere, the ranks of two items being different integers. *)
Lemma first_round_at_least_one n embedding a e :
  (1 <= n)%nat ->
  rank_distance n embedding 0 = Some a -> np_add (identity_flat n) a = Some e ->
  Forall (fun w => (1 <= w)%Q) e.
Proof.
  intros Hn Ha He. unfold rank_distance in Ha.
  destruct (dim_ranks embedding 0) as [ranks|] eqn:Hr; [|done].
  cbn -[Qabs Qminus Qdiv Qmult inject_Z] in Ha. injection Ha as <-.
  assert (Hperm : ranks ≡ₚ arange (length ranks)).
  { unfold dim_ranks in Hr. destruct (column embedding 0) as [col|]; [|done].
    cbn -[argsort] in Hr. injection Hr as <-.
    rewrite argsort_length. apply argsort_perm. }
  unfold np_add in He. case_bool_decide as Hlen; [|done]. injection He as <-.
  assert (Hm : length ranks = n).
  { unfold identity_flat in Hlen.
    rewrite !length_zip_with, !length_np_tile, !length_np_repeat,
      !length_fmap, !length_seq in Hlen. nia. }
  set (g := fun k : Z => (1 / inject_Z (1 + Z.of_nat 0) * inject_Z k)%Q).
  rewrite (list_as_fmap_seq 0 ranks), Hm, <- list_fmap_compose.
  rewrite np_tile_fmap, np_repeat_fmap. unfold identity_flat.
  rewrite zip_with_cross. apply Forall_zip_with_elems. intros i j Hi Hj.
  apply elem_of_np_repeat, elem_of_seq in Hi.
  apply elem_of_np_tile, elem_of_seq in Hj. cbv beta. unfold compose.
  destruct (lookup_lt_is_Some_2 ranks i) as [ri Hri]; [lia|].
  destruct (lookup_lt_is_Some_2 ranks j) as [rj Hrj]; [lia|].
  rewrite Hri, Hrj. cbn [default from_option id]. fold (g rj) (g ri).
  case_bool_decide as Hij.
  - change (1 <= 1 + Qabs (g rj - g ri))%Q.
    pose proof (Qabs_nonneg (g rj - g ri)). lra.
  - assert (rj <> ri).
    { intros ->. apply Hij. eapply NoDup_lookup; [|exact Hri|exact Hrj].
      rewrite Hperm. unfold arange. apply (NoDup_fmap_2 _), NoDup_seq. }
    change (1 <= 0 + Qabs (g rj - g ri))%Q.
    pose proof (integer_gap rj ri H). unfold g. lra.
Qed.

Lemma update2_dense_at_least_one n embedding eta_mat :
  (3 <= n)%nat -> update2_dense n embedding = Some eta_mat ->
  Forall (fun w => (1 <= w)%Q) (concat eta_mat).
Proof.
  intros Hn. unfold update2_dense.
  destruct (Z.to_nat (Z.min (Z.of_nat n - 1) 5)) as [|m] eqn:E; [lia|].
  simpl. destruct (rank_distance n embedding 0) as [a|] eqn:Ha; [|done]. simpl.
  destruct (np_add (identity_flat n) a) as [e1|] eqn:He1; [|done]. simpl.
  destruct (accumulate _ _ e1) as [flat|] eqn:Hacc; [|done]. simpl.
  unfold reshape. case_bool_decide; [|done]. intros [= <-].
  apply chunks_Forall.
  eapply (accumulate_at_least 1); [|exact Hacc|].
  - intros dim a'. apply rank_distance_nonneg.
  - eapply first_round_at_least_one; [|exact Ha|exact He1]. lia.
Qed.

End RankWeights.

(** X21.  On a dense input every weight [spectral_eta_trick2] assigns is at
    least 1, so the next division is safe: one on the diagonal, and off it
    the rank distance of the first coordinate, which is a positive integer. *)
Theorem experimental_dense_weights_at_least_one spectral_embedding_default
    n_iter p return_score add_momentum Xd r tr eta_w :
  spectral_eta_trick2 spectral_embedding_default n_iter p return_score
    add_momentum (Dense Xd) = Some (r, tr) ->
  EvWeights eta_w ∈ tr ->
  Forall (fun w => (1 <= w)%Q) eta_w.
Proof.
  unfold spectral_eta_trick2. destruct (shape (Dense Xd)) as [n n2] eqn:Hs.
  case_bool_decide; [|done]. case_bool_decide as Hn.
  { intros [= _ <-] Hin. inversion Hin. }
  destruct (loop _ _ _) as [st'|] eqn:Hl; [|done]. cbn. intros [= _ <-].
  revert eta_w.
  refine (loop_invariant _ (fun st => forall e, EvWeights e ∈ trace st ->
            Forall (fun w => (1 <= w)%Q) e) _ _ _ _ _ Hl).
  - intros st r' Hst Hb.
    destruct (dense_body2_step _ _ _ _ _ Hb) as (? & emb & m & Hu & _ & ->).
    intros e. rewrite elem_of_app, !elem_of_cons.
    intros [He|[He|[He|He]]]; try done; [by apply Hst| |inversion He].
    injection He as ->. eapply update2_dense_at_least_one; [|exact Hu].
    simpl in Hs. rewrite Hs. simpl. lia.
  - intros e He. inversion He.
Qed.

Lemma experimental_dense_weights_at_least_one_witness :
  exists r tr eta_w,
    spectral_eta_trick2 (line_embedding_default [-1; 1; 0]%Q) 2 1 true None
      (Dense path_dense) = Some (r, tr)
    /\ last tr = Some (EvWeights eta_w)
    /\ Forall (fun w => (1 <= w)%Q) eta_w.
Proof.
  do 3 eexists. split; [vm_compute; reflexivity|]. split; [reflexivity|].
  eapply (experimental_dense_weights_at_least_one
            (line_embedding_default [-1; 1; 0]%Q) 2 1 true None path_dense).
  - vm_compute. reflexivity.
  - apply list_elem_of_In. simpl. tauto.
Defined.

(** ** The estimator *)

(** X22.  What [fit_transform] of the estimator gives: the loss is Huber with
    the estimator's [dh], whatever else is set, so the ordering is the identity
    or has a strictly smaller Huber score than the identity; it is a
    permutation of [0 .. n-1] when the embedding routine returns one row per
    item; it is what [ordering] holds afterwards, a previous fit being
    forgotten, and the other attributes are as before. *)
Theorem estimator_ordering spectral_embedding np_sqrt s X s' perm sc tr :
  (forall X_w k e, spectral_embedding X_w k = Some e -> length e = (shape X).1) ->
  SpectralEtaTrick.fit_transform spectral_embedding np_sqrt s X
    = Some (s', (perm, sc), tr) ->
  perm ≡ₚ arange (shape X).1
  /\ (perm = arange (shape X).1
      \/ exists h h0,
           compute_score X "Huber" (SpectralEtaTrick.dh s) (Some perm) false = Some h
           /\ compute_score X "Huber" (SpectralEtaTrick.dh s) None false = Some h0
           /\ (h < h0)%Q)
  /\ SpectralEtaTrick.ordering s' = Some (perm, sc)
  /\ SpectralEtaTrick.fit_config s' = SpectralEtaTrick.fit_config s
  /\ (forall previous,
        SpectralEtaTrick.fit_transform spectral_embedding np_sqrt
          (SpectralEtaTrick.Self (SpectralEtaTrick.n_iter s) (SpectralEtaTrick.dh s)
             (SpectralEtaTrick.return_score s) (SpectralEtaTrick.circular s)
             (SpectralEtaTrick.avg_dim s) (SpectralEtaTrick.avg_scaling s) previous) X
        = Some (s', (perm, sc), tr)).
Proof.
  intros Hrows. unfold SpectralEtaTrick.fit_transform, SpectralEtaTrick.fit.
  destruct (spectral_eta_trick3 _ _ _ X) as [[[perm0 sc0] tr0]|] eqn:Hrun; [|done].
  cbn. intros [= <- <- <- <-].
  split; [by eapply best_perm_stays_permutation|].
  split; [exact (best_perm_improves _ _ _ _ _ _ _ Hrun)|].
  split; [done|]. split; [done|].
  intros previous. unfold SpectralEtaTrick.fit_config in *. cbn. by rewrite Hrun.
Qed.

Lemma estimator_ordering_witness :
  [0; 2; 1] ≡ₚ arange (shape (Dense path_dense)).1.
Proof.
  eapply proj1.
  eapply (estimator_ordering (line_embedding [-1; 1; 0]%Q) sqrt_milli
            SpectralEtaTrick.init_default (Dense path_dense)
            (SpectralEtaTrick.Self 15 1 false false 3 true (Some ([0; 2; 1], None)))
            [0; 2; 1] None).
  - intros X_w k e [= <-]. reflexivity.
  - vm_compute. reflexivity.
Defined.
